(** * Pattern_Iterator: the traversal strategies of [pattern_Iterator.py]

    A shallow embedding of the three iterator classes
    ([SequentialIterator], [BusIterator], [RandomWalkIterator]), of the
    collection [CityAttractions] with its factory [create_iterator], and of
    the client loop [while it.has_next(): print(it.next())].

    Python objects that are shared by reference (the dict of attractions, the
    lists of exhibits, the list of keys an iterator builds for itself) live in
    a store; an iterator object is a record of its attributes that the methods
    thread through a small state-and-exception monad. *)

From stdpp Require Import base numbers option list strings gmap.

Local Open Scope string_scope.
Local Open Scope Z_scope.

(** ** Python values and the object store *)

Definition loc := nat.

(** The mutable objects of the program: a [list] of [str], and a [dict] from
    [str] to (a reference to) a list.  A dict keeps its entries in insertion
    order, so its entries are an association list. *)
Inductive obj :=
| PyList (xs : list string)
| PyDict (entries : list (string * loc)).

Abbreviation heap := (gmap loc obj).

(** Exceptions are identified by the name of their class. *)
Definition exn := string.
Definition IndexError : exn := "IndexError".
Definition KeyError : exn := "KeyError".
Definition TypeError : exn := "TypeError".

(** The outcome of running a piece of code: a returned value, a raised
    exception, or [Diverged] when the recursion budget of the model ran out. *)
Inductive result (A : Type) :=
| Ret (a : A)
| Raise (e : exn)
| Diverged.
Arguments Ret {A} a.
Arguments Raise {A} e.
Arguments Diverged {A}.

(** ** The monad of methods

    A method of an object with attributes [S] reads and writes the store and
    its own attributes; what it wrote stays written when it raises. *)
Definition M (S A : Type) : Type := S → heap → result A * S * heap.

Definition ret {S A} (a : A) : M S A := λ s h, (Ret a, s, h).
Definition raise {S A} (e : exn) : M S A := λ s h, (Raise e, s, h).
Definition bind {S A B} (m : M S A) (k : A → M S B) : M S B :=
  λ s h, match m s h with
         | (Ret a, s', h') => k a s' h'
         | (Raise e, s', h') => (Raise e, s', h')
         | (Diverged, s', h') => (Diverged, s', h')
         end.
Definition get_self {S} : M S S := λ s h, (Ret s, s, h).
Definition set_self {S} (s' : S) : M S unit := λ _ h, (Ret tt, s', h).
Definition get_heap {S} : M S heap := λ s h, (Ret h, s, h).
Definition set_heap {S} (h' : heap) : M S unit := λ s _, (Ret tt, s, h').
Definition lift_option {S A} (e : exn) (o : option A) : M S A :=
  match o with Some a => ret a | None => raise e end.

Notation "'let*' x ':=' m 'in' k" := (bind m (λ x, k))
  (at level 10, x pattern, m at level 100, k at level 200).
Notation "'do' m 'then' k" := (bind m (λ _, k))
  (at level 10, m at level 100, k at level 200).

(** Reading the object behind a reference.  A reference always denotes an
    object in Python; an absent or ill-typed one is reported as [TypeError]
    to keep the model total. *)
Definition as_list (h : heap) (l : loc) : option (list string) :=
  match h !! l with Some (PyList xs) => Some xs | _ => None end.
Definition as_dict (h : heap) (l : loc) : option (list (string * loc)) :=
  match h !! l with Some (PyDict kv) => Some kv | _ => None end.

Definition load_list {S} (l : loc) : M S (list string) :=
  let* h := get_heap in lift_option TypeError (as_list h l).
Definition load_dict {S} (l : loc) : M S (list (string * loc)) :=
  let* h := get_heap in lift_option TypeError (as_dict h l).

(** Allocation of a new object at an unused address. *)
Definition alloc {S} (o : obj) : M S loc :=
  let* h := get_heap in
  let l := fresh (dom h) in
  do set_heap (<[l := o]> h) then ret l.

(** In-place update of the list behind a reference. *)
Definition store_list {S} (l : loc) (xs : list string) : M S unit :=
  do load_list l then
  let* h := get_heap in set_heap (<[l := PyList xs]> h).

(** [len(xs)] *)
Definition len {A} (xs : list A) : Z := Z.of_nat (length xs).

(** [xs[i]]: a negative index counts from the end; out of range is
    [IndexError]. *)
Definition getitem {A} (xs : list A) (i : Z) : option A :=
  if i <? 0 then
    if - len xs <=? i then xs !! Z.to_nat (len xs + i) else None
  else xs !! Z.to_nat i.

(** [d[key]] on the entries of a dict; a missing key is [KeyError]. *)
Fixpoint dict_get {V} (kv : list (string * V)) (key : string) : option V :=
  match kv with
  | [] => None
  | (k, v) :: kv' => if String.eqb k key then Some v else dict_get kv' key
  end.

(** [list(d.keys())] *)
Definition dict_keys {V} (kv : list (string * V)) : list string := kv.*1.

(** The f-string [f"{key}: {exhibit}"]. *)
Definition fmt (key exhibit : string) : string := key +:+ ": " +:+ exhibit.

(** ** [class Iterator(ABC)]

    The interface of the iterators: [has_next] and [next].  The value of
    [next()] is a [str] or [None]. *)
Class Iterator (T : Type) := {
  has_next : M T bool;
  next : M T (option string)
}.

(** ** [class SequentialIterator(Iterator)] *)
Module SequentialIterator.

Record t := Build {
  _attractions : loc;
  _keys : loc;
  _current_attraction : Z;
  _current_exhibit : Z
}.

Definition set_current_attraction (v : Z) : M t unit :=
  let* self := get_self in
  set_self (Build (_attractions self) (_keys self) v (_current_exhibit self)).
Definition set_current_exhibit (v : Z) : M t unit :=
  let* self := get_self in
  set_self (Build (_attractions self) (_keys self) (_current_attraction self) v).

(** [__init__(self, attractions)]; [list(attractions.keys())] is a new
    list object. *)
Definition __init__ {S} (attractions : loc) : M S t :=
  let* d := load_dict attractions in
  let* keys := alloc (PyList (dict_keys d)) in
  ret (Build attractions keys 0 0).

(** [return self._current_attraction < len(self._keys)] *)
Definition has_next : M t bool :=
  let* self := get_self in
  let* keys := load_list (_keys self) in
  ret (_current_attraction self <? len keys).

(** [next(self)], with [depth] bounding the nesting of its calls to
    itself. *)
Fixpoint next_rec (depth : nat) : M t (option string) :=
  let* self := get_self in
  let* keys := load_list (_keys self) in
  let* key := lift_option IndexError (getitem keys (_current_attraction self)) in
  let* d := load_dict (_attractions self) in
  let* r := lift_option KeyError (dict_get d key) in
  let* exhibits := load_list r in
  if _current_exhibit self <? len exhibits then
    let* exhibit := lift_option IndexError (getitem exhibits (_current_exhibit self)) in
    do set_current_exhibit (_current_exhibit self + 1) then
    ret (Some (fmt key exhibit))
  else
    do set_current_attraction (_current_attraction self + 1) then
    do set_current_exhibit 0 then
    let* more := has_next in
    if more then
      match depth with
      | O => λ s h, (Diverged, s, h)
      | S depth' => next_rec depth'
      end
    else ret None.

(** The groups from the cursor to the end of the key list: the nesting
    that [next] is given. *)
Definition groups_left (self : t) (h : heap) : nat :=
  match as_list h (_keys self) with
  | Some keys => Z.to_nat (len keys - _current_attraction self)
  | None => O
  end.

Definition next : M t (option string) :=
  let* self := get_self in
  let* h := get_heap in
  next_rec (groups_left self h).

(** The three ways a call of [next] goes: it raises before it changed
    anything, it returns the exhibit under the cursor, or it moves to the
    next attraction. *)
Inductive next_case (self : t) (h : heap) : Prop :=
| case_raise e :
    (∀ depth, next_rec depth self h = (Raise e, self, h)) →
    next_case self h
| case_item ks key d r exhibits exhibit :
    as_list h (_keys self) = Some ks →
    getitem ks (_current_attraction self) = Some key →
    as_dict h (_attractions self) = Some d →
    dict_get d key = Some r →
    as_list h r = Some exhibits →
    getitem exhibits (_current_exhibit self) = Some exhibit →
    next_case self h
| case_skip ks key d r exhibits :
    as_list h (_keys self) = Some ks →
    getitem ks (_current_attraction self) = Some key →
    as_dict h (_attractions self) = Some d →
    dict_get d key = Some r →
    as_list h r = Some exhibits →
    len exhibits ≤ _current_exhibit self →
    next_case self h.

End SequentialIterator.

#[export] Instance SequentialIterator_Iterator : Iterator SequentialIterator.t :=
  {| has_next := SequentialIterator.has_next; next := SequentialIterator.next |}.

(** ** [class BusIterator(Iterator)] *)
Module BusIterator.

Record t := Build {
  _attractions : loc;
  _keys : loc;
  _index : Z
}.

Definition set_index (v : Z) : M t unit :=
  let* self := get_self in
  set_self (Build (_attractions self) (_keys self) v).

Definition __init__ {S} (attractions : loc) : M S t :=
  let* d := load_dict attractions in
  let* keys := alloc (PyList (dict_keys d)) in
  ret (Build attractions keys 0).

(** [return self._index < len(self._keys)] *)
Definition has_next : M t bool :=
  let* self := get_self in
  let* keys := load_list (_keys self) in
  ret (_index self <? len keys).

Definition next : M t (option string) :=
  let* self := get_self in
  let* keys := load_list (_keys self) in
  let* key := lift_option IndexError (getitem keys (_index self)) in
  do set_index (_index self + 1) then
  ret (Some key).

End BusIterator.

#[export] Instance BusIterator_Iterator : Iterator BusIterator.t :=
  {| has_next := BusIterator.has_next; next := BusIterator.next |}.

(** ** [random.shuffle]

    The standard library's in-place shuffle,
    [for i in reversed(range(1, len(x))): j = randbelow(i + 1);
     x[i], x[j] = x[j], x[i]],
    with the generator given as the function [rand] whose value at [i],
    reduced below [i + 1], is the draw made at step [i]. *)
Fixpoint shuffle_from {S} (rand : nat → nat) (i : nat) (x : loc) : M S unit :=
  match i with
  | O => ret tt
  | S i' =>
      let j := (rand i `mod` (i + 1))%nat in
      let* xs := load_list x in
      let* xj := lift_option IndexError (xs !! j) in
      let* xi := lift_option IndexError (xs !! i) in
      do store_list x (<[i := xj]> xs) then
      let* xs' := load_list x in
      do store_list x (<[j := xi]> xs') then
      shuffle_from rand i' x
  end.

Definition shuffle {S} (rand : nat → nat) (x : loc) : M S unit :=
  let* xs := load_list x in
  shuffle_from rand (length xs - 1) x.

(** ** [class RandomWalkIterator(Iterator)] *)
Module RandomWalkIterator.

Record t := Build {
  _attractions : loc;
  _keys : loc;
  _current_attraction : Z;
  _current_exhibit : Z
}.

Definition set_current_attraction (v : Z) : M t unit :=
  let* self := get_self in
  set_self (Build (_attractions self) (_keys self) v (_current_exhibit self)).
Definition set_current_exhibit (v : Z) : M t unit :=
  let* self := get_self in
  set_self (Build (_attractions self) (_keys self) (_current_attraction self) v).

(** [__init__(self, attractions)]: the new list of keys is shuffled in
    place. *)
Definition __init__ {S} (rand : nat → nat) (attractions : loc) : M S t :=
  let* d := load_dict attractions in
  let* keys := alloc (PyList (dict_keys d)) in
  do shuffle rand keys then
  ret (Build attractions keys 0 0).

Definition has_next : M t bool :=
  let* self := get_self in
  let* keys := load_list (_keys self) in
  ret (_current_attraction self <? len keys).

Fixpoint next_rec (depth : nat) : M t (option string) :=
  let* self := get_self in
  let* keys := load_list (_keys self) in
  let* key := lift_option IndexError (getitem keys (_current_attraction self)) in
  let* d := load_dict (_attractions self) in
  let* r := lift_option KeyError (dict_get d key) in
  let* exhibits := load_list r in
  if _current_exhibit self <? len exhibits then
    let* exhibit := lift_option IndexError (getitem exhibits (_current_exhibit self)) in
    do set_current_exhibit (_current_exhibit self + 1) then
    ret (Some (fmt key exhibit))
  else
    do set_current_attraction (_current_attraction self + 1) then
    do set_current_exhibit 0 then
    let* more := has_next in
    if more then
      match depth with
      | O => λ s h, (Diverged, s, h)
      | S depth' => next_rec depth'
      end
    else ret None.

Definition groups_left (self : t) (h : heap) : nat :=
  match as_list h (_keys self) with
  | Some keys => Z.to_nat (len keys - _current_attraction self)
  | None => O
  end.

Definition next : M t (option string) :=
  let* self := get_self in
  let* h := get_heap in
  next_rec (groups_left self h).

End RandomWalkIterator.

#[export] Instance RandomWalkIterator_Iterator : Iterator RandomWalkIterator.t :=
  {| has_next := RandomWalkIterator.has_next; next := RandomWalkIterator.next |}.

(** ** Calling a method of an object held in a variable *)

(** [call o m] runs the method [m] on the object [o] and gives back its
    value together with the object as the method left it; an exception of
    the method is an exception of the caller. *)
Definition call {S T A} (o : T) (m : M T A) : M S (A * T) :=
  λ s h, match m o h with
         | (Ret a, o', h') => (Ret (a, o'), s, h')
         | (Raise e, _, h') => (Raise e, s, h')
         | (Diverged, _, h') => (Diverged, s, h')
         end.

(** [focus] runs a method of a variant on the whole sum type. *)
Definition focus {T U A} (inj : T → U) (o : T) (m : M T A) : M U A :=
  λ _ h, match m o h with (r, o', h') => (r, inj o', h') end.

(** An iterator object is an instance of one of the three classes; a call
    through the interface dispatches on the class. *)
Inductive iterator :=
| Sequential (it : SequentialIterator.t)
| Bus (it : BusIterator.t)
| RandomWalk (it : RandomWalkIterator.t).

#[export] Instance iterator_Iterator : Iterator iterator := {|
  has_next := λ o,
    match o with
    | Sequential it => focus Sequential it has_next o
    | Bus it => focus Bus it has_next o
    | RandomWalk it => focus RandomWalk it has_next o
    end;
  next := λ o,
    match o with
    | Sequential it => focus Sequential it next o
    | Bus it => focus Bus it next o
    | RandomWalk it => focus RandomWalk it next o
    end
|}.

(** ** [class CityAttractions(IterableCollection)] *)
Module CityAttractions.

Record t := Build { _attractions : loc }.

(** [__init__(self)]: the dict literal, its three lists first. *)
Definition __init__ {S} : M S t :=
  let* l1 := alloc (PyList ["Картина 1"; "Картина 2"; "Статуя 1"]) in
  let* l2 := alloc (PyList ["Мозаика 1"; "Люстра"; "Витраж"]) in
  let* l3 := alloc (PyList ["Пушка"; "Музей истории"]) in
  let* d := alloc (PyDict [("Эрмитаж", l1);
                           ("Исаакиевский собор", l2);
                           ("Петропавловская крепость", l3)]) in
  ret (Build d).

(** [create_iterator(self, type_="sequential")]; [None] stands for a call
    that leaves the argument out. *)
Definition create_iterator (rand : nat → nat) (type_ : option string)
  : M t iterator :=
  let type_ := default "sequential" type_ in
  let* self := get_self in
  if String.eqb type_ "bus" then
    let* it := BusIterator.__init__ (_attractions self) in ret (Bus it)
  else if String.eqb type_ "random_walk" then
    let* it := RandomWalkIterator.__init__ rand (_attractions self) in
    ret (RandomWalk it)
  else
    let* it := SequentialIterator.__init__ (_attractions self) in
    ret (Sequential it).

End CityAttractions.

(** ** The client *)

(** [while iterator.has_next(): print(iterator.next())], as the list of the
    values handed to [print]; [fuel] bounds the number of rounds. *)
Fixpoint consume {T} `{Iterator T} (fuel : nat) : M T (list (option string)) :=
  let* more := has_next in
  if more then
    match fuel with
    | O => λ s h, (Diverged, s, h)
    | S fuel' =>
        let* v := next in
        let* vs := consume fuel' in
        ret (v :: vs)
    end
  else ret [].

(** [str(v)] as [print] writes it. *)
Definition py_str (v : option string) : string :=
  match v with Some s => s | None => "None" end.

Definition newline : string := String (Ascii.ascii_of_nat 10) "".

(** [main()], as the list of the strings printed, one per call of
    [print]. *)
Definition main (rand : nat → nat) (fuel : nat) : M unit (list string) :=
  let* (city, _) := call tt CityAttractions.__init__ in
  let* (it, _) := call city (CityAttractions.create_iterator rand None) in
  let* (out1, _) := call it (consume fuel) in
  let* (bus_iterator, _) :=
    call city (CityAttractions.create_iterator rand (Some "bus")) in
  let* (out2, _) := call bus_iterator (consume fuel) in
  let* (random_walk_iterator, _) :=
    call city (CityAttractions.create_iterator rand (Some "random_walk")) in
  let* (out3, _) := call random_walk_iterator (consume fuel) in
  ret (["Пешком:"] ++ (py_str <$> out1)
       ++ [newline +:+ "На автобусе:"] ++ (py_str <$> out2)
       ++ [newline +:+ "Случайная прогулка:"] ++ (py_str <$> out3))%list.

Definition run {S A} (m : M S A) (s : S) (h : heap) : result A :=
  (m s h).1.1.

(** ** Building a collection *)

(** [d[key] = v] on the entries of a dict: a key that is there keeps its
    place, a new key goes to the end. *)
Fixpoint dict_set {V} (kv : list (string * V)) (key : string) (v : V)
  : list (string * V) :=
  match kv with
  | [] => [(key, v)]
  | (k, v') :: kv' =>
      if String.eqb k key then (k, v) :: kv' else (k, v') :: dict_set kv' key v
  end.

(** A dict display [{k1: [...], k2: [...]}]: the lists are built from left
    to right, then the dict. *)
Fixpoint new_entries {S} (groups : list (string * list string))
  (kv : list (string * loc)) : M S (list (string * loc)) :=
  match groups with
  | [] => ret kv
  | (k, xs) :: groups' =>
      let* l := alloc (PyList xs) in
      new_entries groups' (dict_set kv k l)
  end.

Definition new_dict {S} (groups : list (string * list string)) : M S loc :=
  let* kv := new_entries groups [] in
  alloc (PyDict kv).

(** The exhibits [attractions[key]] as the store has them. *)
Definition exhibits_of (h : heap) (attractions : loc) (key : string)
  : option (list string) :=
  match as_dict h attractions with
  | Some d =>
      match dict_get d key with
      | Some l => as_list h l
      | None => None
      end
  | None => None
  end.

(** [type(it).__name__] *)
Definition class_name (it : iterator) : string :=
  match it with
  | Sequential _ => "SequentialIterator"
  | Bus _ => "BusIterator"
  | RandomWalk _ => "RandomWalkIterator"
  end.

(** A call made through the interface, for sequences of calls. *)
Inductive method := HasNext | Next.

(** The object and the store after one call, whatever the call gave. *)
Definition after {T} `{Iterator T} (c : method) (o : T) (h : heap) : T * heap :=
  match c with
  | HasNext => let '(_, o', h') := has_next o h in (o', h')
  | Next => let '(_, o', h') := next o h in (o', h')
  end.

Fixpoint after_all {T} `{Iterator T} (cs : list method) (o : T) (h : heap)
  : T * heap :=
  match cs with
  | [] => (o, h)
  | c :: cs' => let '(o', h') := after c o h in after_all cs' o' h'
  end.

(** ** [RandomWalkIterator] read as a [SequentialIterator] *)

Definition as_sequential (it : RandomWalkIterator.t) : SequentialIterator.t :=
  SequentialIterator.Build
    (RandomWalkIterator._attractions it) (RandomWalkIterator._keys it)
    (RandomWalkIterator._current_attraction it)
    (RandomWalkIterator._current_exhibit it).

Definition as_random_walk (it : SequentialIterator.t) : RandomWalkIterator.t :=
  RandomWalkIterator.Build
    (SequentialIterator._attractions it) (SequentialIterator._keys it)
    (SequentialIterator._current_attraction it)
    (SequentialIterator._current_exhibit it).

Definition retag {A} (x : result A * SequentialIterator.t * heap)
  : result A * RandomWalkIterator.t * heap :=
  (x.1.1, as_random_walk x.1.2, x.2).

(** The list that the shuffle leaves behind the reference. *)
Fixpoint shuffled (rand : nat → nat) (i : nat) (xs : list string) : list string :=
  match i with
  | O => xs
  | S i' =>
      let j := (rand i `mod` (i + 1))%nat in
      match xs !! j, xs !! i with
      | Some xj, Some xi => shuffled rand i' (<[j := xi]> (<[i := xj]> xs))
      | _, _ => xs
      end
  end.

(** ** What the walk on foot has still to return *)

(** The exhibits of the group [key], formatted as [next] returns them. *)
Definition group_lines (h : heap) (a : loc) (key : string) : list string :=
  fmt key <$> default [] (exhibits_of h a key).

Definition lines_of (h : heap) (a : loc) (keys : list string) : list string :=
  concat (group_lines h a <$> keys).

(** The strings ahead of the cursors [c] and [e] over the keys [ks]. *)
Definition remaining (h : heap) (a : loc) (ks : list string) (c e : nat)
  : list string :=
  (drop e (from_option (group_lines h a) [] (ks !! c))
   ++ lines_of h a (drop (S c) ks))%list.

(** ** The attributes every iterator has *)

Definition iterator_attractions (it : iterator) : loc :=
  match it with
  | Sequential it => SequentialIterator._attractions it
  | Bus it => BusIterator._attractions it
  | RandomWalk it => RandomWalkIterator._attractions it
  end.

Definition iterator_keys (it : iterator) : loc :=
  match it with
  | Sequential it => SequentialIterator._keys it
  | Bus it => BusIterator._keys it
  | RandomWalk it => RandomWalkIterator._keys it
  end.

(** The cursor over the groups: [_current_attraction], or [_index]. *)
Definition iterator_cursor (it : iterator) : Z :=
  match it with
  | Sequential it => SequentialIterator._current_attraction it
  | Bus it => BusIterator._index it
  | RandomWalk it => RandomWalkIterator._current_attraction it
  end.

(** The cursor over the exhibits of the current group; the bus iterator
    has none. *)
Definition iterator_exhibit (it : iterator) : Z :=
  match it with
  | Sequential it => SequentialIterator._current_exhibit it
  | Bus _ => 0
  | RandomWalk it => RandomWalkIterator._current_exhibit it
  end.


(** The outcome of a method of one of the classes, as the outcome of the
    call through the interface. *)
Definition on_variant {T A} (inj : T → iterator) (x : result A * T * heap)
  : result A * iterator * heap :=
  (x.1.1, inj x.1.2, x.2).

(** ** Two runs on small collections *)

(** The bus iterator over [{"A": ["x"]}] after its one key was returned. *)
Definition exhausted_bus : result (iterator * heap) :=
  match (let* a := new_dict [("A", ["x"])] in
         let* it := BusIterator.__init__ a in
         let* (_, it) := call it next in
         ret (Bus it)) tt ∅ with
  | (Ret it, _, h) => Ret (it, h)
  | (Raise e, _, _) => Raise e
  | (Diverged, _, _) => Diverged
  end.

(** The class of the iterator that [create_iterator] makes on the built-in
    collection for the argument [type_]. *)
Definition created_class (rand : nat → nat) (type_ : option string)
  : result string :=
  run (let* (city, _) := call tt CityAttractions.__init__ in
       let* (it, _) := call city (CityAttractions.create_iterator rand type_) in
       ret (class_name it)) tt ∅.

(** * Properties *)

(** ** Indexing *)

Lemma getitem_Some_lt {A} (xs : list A) i x :
  getitem xs i = Some x → i < len xs.
Proof.
  unfold getitem, len. intros Hx.
  destruct (Z.ltb_spec i 0); [lia|].
  apply lookup_lt_Some in Hx. lia.
Qed.

Lemma getitem_ge {A} (xs : list A) i : len xs ≤ i → getitem xs i = None.
Proof.
  unfold getitem, len. intros Hx.
  destruct (Z.ltb_spec i 0); [lia|].
  apply lookup_ge_None. lia.
Qed.

Lemma getitem_nat {A} (xs : list A) (n : nat) :
  getitem xs (Z.of_nat n) = xs !! n.
Proof.
  unfold getitem. destruct (Z.ltb_spec (Z.of_nat n) 0); [lia|].
  by rewrite Nat2Z.id.
Qed.

Lemma len_nil_inv {A} (xs : list A) : len xs ≤ 0 → xs = [].
Proof. destruct xs; [done|]. unfold len. simpl. lia. Qed.

(** ** One step of [SequentialIterator.next] *)

Ltac unfold_monad :=
  cbv beta iota delta [bind ret raise get_self set_self get_heap set_heap
                       load_list load_dict lift_option] in *.

Module SequentialFacts.
Import SequentialIterator.

Lemma has_next_eq self h ks :
  as_list h (_keys self) = Some ks →
  has_next self h = (Ret (_current_attraction self <? len ks), self, h).
Proof. intros Hks. unfold has_next. unfold_monad. by rewrite Hks. Qed.

Lemma has_next_frame self h r self' h' :
  has_next self h = (r, self', h') → self' = self ∧ h' = h.
Proof.
  unfold has_next. unfold_monad.
  destruct (as_list h (_keys self)); simpl; intros [= <- <- <-]; done.
Qed.

Lemma has_next_false_inv self h self' h' :
  has_next self h = (Ret false, self', h') →
  ∃ ks, as_list h (_keys self) = Some ks ∧ len ks ≤ _current_attraction self.
Proof.
  unfold has_next. unfold_monad.
  destruct (as_list h (_keys self)) as [ks|]; simpl; [|done].
  intros [= Hlt _ _]. exists ks. split; [done|].
  by apply Z.ltb_ge.
Qed.

Section step.
Context (self : t) (h : heap) (ks : list string).
Hypothesis Hks : as_list h (_keys self) = Some ks.

Lemma next_rec_IndexError depth :
  getitem ks (_current_attraction self) = None →
  next_rec depth self h = (Raise IndexError, self, h).
Proof.
  intros Hk. destruct depth; simpl; unfold_monad; by rewrite Hks, Hk.
Qed.

Context (key : string) (d : list (string * loc)) (r : loc)
        (exhibits : list string).
Hypothesis Hkey : getitem ks (_current_attraction self) = Some key.
Hypothesis Hd : as_dict h (_attractions self) = Some d.
Hypothesis Hr : dict_get d key = Some r.
Hypothesis Hex : as_list h r = Some exhibits.

Lemma next_rec_item depth exhibit :
  getitem exhibits (_current_exhibit self) = Some exhibit →
  next_rec depth self h =
    (Ret (Some (fmt key exhibit)),
     Build (_attractions self) (_keys self) (_current_attraction self)
           (_current_exhibit self + 1), h).
Proof.
  intros Hx. pose proof (getitem_Some_lt _ _ _ Hx) as Hlt.
  apply Z.ltb_lt in Hlt.
  destruct depth; simpl; unfold set_current_exhibit; unfold_monad;
    by rewrite Hks, Hkey, Hd, Hr, Hex, Hlt, Hx.
Qed.

Lemma next_rec_skip depth :
  len exhibits ≤ _current_exhibit self →
  next_rec depth self h =
    let self' := Build (_attractions self) (_keys self)
                       (_current_attraction self + 1) 0 in
    if _current_attraction self + 1 <? len ks then
      match depth with
      | O => (Diverged, self', h)
      | S depth' => next_rec depth' self' h
      end
    else (Ret None, self', h).
Proof.
  intros Hge. apply Z.ltb_ge in Hge.
  destruct depth; simpl; unfold set_current_exhibit,
    set_current_attraction, has_next; unfold_monad;
    rewrite Hks, Hkey, Hd, Hr, Hex, Hge; simpl; rewrite Hks; simpl.
  all: destruct (_current_attraction self + 1 <? len ks); reflexivity.
Qed.
End step.

Lemma next_cases self h : next_case self h.
Proof.
  destruct (as_list h (_keys self)) as [ks|] eqn:Hks; cycle 1.
  { apply (case_raise _ _ TypeError). intros [|?]; simpl; unfold_monad;
      by rewrite Hks. }
  destruct (getitem ks (_current_attraction self)) as [key|] eqn:Hkey; cycle 1.
  { apply (case_raise _ _ IndexError). intros ?.
    by apply next_rec_IndexError with ks. }
  destruct (as_dict h (_attractions self)) as [d|] eqn:Hd; cycle 1.
  { apply (case_raise _ _ TypeError). intros [|?]; simpl; unfold_monad;
      by rewrite Hks, Hkey, Hd. }
  destruct (dict_get d key) as [r|] eqn:Hr; cycle 1.
  { apply (case_raise _ _ KeyError). intros [|?]; simpl; unfold_monad;
      by rewrite Hks, Hkey, Hd, Hr. }
  destruct (as_list h r) as [exhibits|] eqn:Hex; cycle 1.
  { apply (case_raise _ _ TypeError). intros [|?]; simpl; unfold_monad;
      by rewrite Hks, Hkey, Hd, Hr, Hex. }
  destruct (Z.ltb_spec (_current_exhibit self) (len exhibits)) as [Hlt|Hge];
    cycle 1.
  { by eapply case_skip. }
  destruct (getitem exhibits (_current_exhibit self)) as [exhibit|] eqn:Hx.
  { by eapply case_item. }
  apply (case_raise _ _ IndexError). apply Z.ltb_lt in Hlt.
  intros [|?]; simpl; unfold_monad; by rewrite Hks, Hkey, Hd, Hr, Hex, Hlt, Hx.
Qed.

(** What a call leaves in place: the store, and the references an iterator
    holds; the cursor over attractions does not go back and does not pass
    the end of the keys. *)
Lemma next_rec_frame depth : ∀ self h r self' h',
  next_rec depth self h = (r, self', h') →
  h' = h ∧ _attractions self' = _attractions self ∧ _keys self' = _keys self
  ∧ _current_attraction self ≤ _current_attraction self'
  ∧ (∀ ks, as_list h (_keys self) = Some ks →
       _current_attraction self ≤ len ks → _current_attraction self' ≤ len ks).
Proof.
  induction depth as [|depth IH]; intros self h r self' h' Hnext.
  all: destruct (next_cases self h) as
    [e He|ks key d l xs x Hks Hkey Hd Hl Hxs Hx|ks key d l xs Hks Hkey Hd Hl Hxs Hx].
  all: try (rewrite He in Hnext; injection Hnext as <- <- <-;
            repeat split; try done; lia).
  all: try (rewrite (next_rec_item _ _ _ Hks _ _ _ _ Hkey Hd Hl Hxs _ _ Hx)
              in Hnext; injection Hnext as <- <- <-;
            repeat split; try done; simpl; lia).
  all: rewrite (next_rec_skip _ _ _ Hks _ _ _ _ Hkey Hd Hl Hxs _ Hx) in Hnext;
    simpl in Hnext; apply getitem_Some_lt in Hkey;
    destruct (Z.ltb_spec (_current_attraction self + 1) (len ks)).
  all: try (injection Hnext as <- <- <-; repeat split; try done; simpl;
            [lia|intros ks' Hks'; simplify_eq; lia]).
  apply IH in Hnext as (-> & -> & -> & Hle & Hinv); simpl in *.
  repeat split; try done; [lia|].
  intros ks' Hks' _. apply Hinv; [done|]. simplify_eq. lia.
Qed.

Ltac next_by_cases self h Hnext :=
  destruct (next_cases self h) as
    [e He|ks key d l xs x Hks Hkey Hd Hl Hxs Hx|ks key d l xs Hks Hkey Hd Hl Hxs Hx];
  [rewrite ?He in *
  |rewrite ?(next_rec_item _ _ _ Hks _ _ _ _ Hkey Hd Hl Hxs _ _ Hx) in *
  |rewrite ?(next_rec_skip _ _ _ Hks _ _ _ _ Hkey Hd Hl Hxs _ Hx) in *].

(** A larger bound on the nesting does not change what a call gives. *)
Lemma next_rec_S depth : ∀ self h r self' h',
  next_rec depth self h = (r, self', h') → r ≠ Diverged →
  next_rec (S depth) self h = (r, self', h').
Proof.
  induction depth as [|depth IH]; intros self h r self' h' Hnext Hr.
  all: next_by_cases self h Hnext; try done.
  all: cbv zeta in *;
    destruct (Z.ltb_spec (_current_attraction self + 1) (len ks)); try done.
  - by injection Hnext as <- <- <-.
  - by apply IH.
Qed.

Lemma next_rec_le d1 d2 self h r self' h' :
  next_rec d1 self h = (r, self', h') → r ≠ Diverged → (d1 ≤ d2)%nat →
  next_rec d2 self h = (r, self', h').
Proof.
  intros Hnext Hr Hle. induction Hle as [|d2 _ IH]; [done|].
  by apply next_rec_S.
Qed.

(** The nesting is bounded by the groups from the cursor on. *)
Lemma next_rec_terminates depth : ∀ self h,
  (groups_left self h ≤ depth)%nat → (next_rec depth self h).1.1 ≠ Diverged.
Proof.
  induction depth as [|depth IH]; intros self h Hle.
  all: next_by_cases self h Hnext; try done.
  all: cbv zeta; apply getitem_Some_lt in Hkey;
    unfold groups_left in Hle; rewrite Hks in Hle;
    destruct (Z.ltb_spec (_current_attraction self + 1) (len ks)); try done.
  - lia.
  - apply IH. unfold groups_left. simpl. rewrite Hks. lia.
Qed.

Lemma next_unfold self h : next self h = next_rec (groups_left self h) self h.
Proof. done. Qed.

Lemma next_rec_next depth self h :
  (groups_left self h ≤ depth)%nat → next_rec depth self h = next self h.
Proof.
  intros Hle. rewrite next_unfold.
  destruct (next_rec (groups_left self h) self h) as [[r self'] h'] eqn:Hn.
  apply next_rec_le with (groups_left self h); [done| |done].
  pose proof (next_rec_terminates (groups_left self h) self h) as Ht.
  rewrite Hn in Ht. by apply Ht.
Qed.

(** A call that returns [None] started before the end of the keys, found
    the current attraction without exhibits left, and passed only empty
    attractions up to the end. *)
Lemma next_rec_None depth : ∀ self h self' h' ks,
  next_rec depth self h = (Ret None, self', h') →
  as_list h (_keys self) = Some ks →
  _current_attraction self < len ks
  ∧ _current_attraction self' = len ks
  ∧ (∃ key d l xs,
       getitem ks (_current_attraction self) = Some key
       ∧ as_dict h (_attractions self) = Some d ∧ dict_get d key = Some l
       ∧ as_list h l = Some xs ∧ len xs ≤ _current_exhibit self)
  ∧ (∀ i key, _current_attraction self < i →
       getitem ks i = Some key →
       ∃ d l, as_dict h (_attractions self) = Some d
              ∧ dict_get d key = Some l ∧ as_list h l = Some []).
Proof.
  induction depth as [|depth IH]; intros self h self' h' ks0 Hnext Hks0.
  all: next_by_cases self h Hnext; try done.
  all: cbv zeta in *; simplify_eq;
    pose proof (getitem_Some_lt _ _ _ Hkey) as Hlt;
    destruct (Z.ltb_spec (_current_attraction self + 1) (len ks0)) as [Hlt'|Hge];
    try done.
  1,3: injection Hnext as <- <-; simpl; repeat split; [lia..| |].
  1,3: by exists key, d, l, xs.
  1,2: intros i key' Hi Hget; apply getitem_Some_lt in Hget; lia.
  apply IH with (ks := ks0) in Hnext as (_ & Hend & Hcur & Htail); [|done].
  simpl in *. repeat split; [done..| |].
  { by exists key, d, l, xs. }
  intros i key' Hi Hget.
  destruct (decide (i = _current_attraction self + 1)) as [->|Hne].
  - destruct Hcur as (key'' & d' & l' & xs' & ? & ? & ? & ? & Hnil).
    simplify_eq. apply len_nil_inv in Hnil as ->. by exists d', l'.
  - apply (Htail i key'); [lia|done].
Qed.

Lemma next_exhausted self h self' h' :
  has_next self h = (Ret false, self', h') →
  next self h = (Raise IndexError, self, h).
Proof.
  intros (ks & Hks & Hge)%has_next_false_inv.
  rewrite next_unfold.
  apply next_rec_IndexError with ks; [done|].
  by apply getitem_ge.
Qed.

End SequentialFacts.

(** ** [RandomWalkIterator] steps as [SequentialIterator] does *)

Module RandomWalkFacts.

Lemma as_random_walk_as_sequential it : as_random_walk (as_sequential it) = it.
Proof. by destruct it. Qed.

Lemma as_sequential_as_random_walk it : as_sequential (as_random_walk it) = it.
Proof. by destruct it. Qed.

Lemma has_next_sequential self h :
  RandomWalkIterator.has_next self h
  = retag (SequentialIterator.has_next (as_sequential self) h).
Proof.
  destruct self as [a k c e].
  unfold RandomWalkIterator.has_next, SequentialIterator.has_next, retag.
  unfold_monad. simpl. by destruct (as_list h k).
Qed.

Lemma next_rec_sequential depth : ∀ self h,
  RandomWalkIterator.next_rec depth self h
  = retag (SequentialIterator.next_rec depth (as_sequential self) h).
Proof.
  induction depth as [|depth IH]; intros [a k c e] h; simpl.
  all: unfold RandomWalkIterator.set_current_exhibit,
    RandomWalkIterator.set_current_attraction,
    SequentialIterator.set_current_exhibit,
    SequentialIterator.set_current_attraction,
    RandomWalkIterator.has_next, SequentialIterator.has_next, retag.
  all: unfold_monad; simpl.
  all: destruct (as_list h k) as [ks|] eqn:Hks; simpl; [|done].
  all: destruct (getitem ks c) as [key|]; simpl; [|done].
  all: destruct (as_dict h a) as [d|]; simpl; [|done].
  all: destruct (dict_get d key) as [l|]; simpl; [|done].
  all: destruct (as_list h l) as [xs|]; simpl; [|done].
  all: destruct (e <? len xs); simpl; [by destruct (getitem xs e)|].
  all: rewrite Hks; simpl.
  all: destruct (c + 1 <? len ks); simpl; [|done].
  - done.
  - by rewrite IH.
Qed.

Lemma next_sequential self h :
  RandomWalkIterator.next self h
  = retag (SequentialIterator.next (as_sequential self) h).
Proof.
  rewrite SequentialFacts.next_unfold.
  change (RandomWalkIterator.next self h)
    with (RandomWalkIterator.next_rec
            (RandomWalkIterator.groups_left self h) self h).
  by rewrite next_rec_sequential.
Qed.

End RandomWalkFacts.

(** ** [BusIterator] *)
Module BusFacts.
Import BusIterator.

Lemma bus_has_next_eq self h ks :
  as_list h (_keys self) = Some ks →
  has_next self h = (Ret (_index self <? len ks), self, h).
Proof. intros Hks. unfold has_next. unfold_monad. by rewrite Hks. Qed.

Lemma bus_has_next_frame self h r self' h' :
  has_next self h = (r, self', h') → self' = self ∧ h' = h.
Proof.
  unfold has_next. unfold_monad.
  destruct (as_list h (_keys self)); simpl; intros [= <- <- <-]; done.
Qed.

Lemma bus_has_next_false_inv self h self' h' :
  has_next self h = (Ret false, self', h') →
  ∃ ks, as_list h (_keys self) = Some ks ∧ len ks ≤ _index self.
Proof.
  unfold has_next. unfold_monad.
  destruct (as_list h (_keys self)) as [ks|]; simpl; [|done].
  intros [= Hlt _ _]. exists ks. split; [done|].
  by apply Z.ltb_ge.
Qed.

Lemma next_key self h ks key :
  as_list h (_keys self) = Some ks →
  getitem ks (_index self) = Some key →
  next self h
  = (Ret (Some key), Build (_attractions self) (_keys self) (_index self + 1), h).
Proof.
  intros Hks Hkey. unfold next, set_index. unfold_monad.
  by rewrite Hks, Hkey.
Qed.

Lemma next_IndexError self h ks :
  as_list h (_keys self) = Some ks →
  getitem ks (_index self) = None →
  next self h = (Raise IndexError, self, h).
Proof.
  intros Hks Hkey. unfold next, set_index. unfold_monad.
  by rewrite Hks, Hkey.
Qed.

Lemma bus_next_exhausted self h self' h' :
  has_next self h = (Ret false, self', h') →
  next self h = (Raise IndexError, self, h).
Proof.
  intros (ks & Hks & Hge)%bus_has_next_false_inv.
  apply next_IndexError with ks; [done|]. by apply getitem_ge.
Qed.

Lemma next_frame self h r self' h' :
  next self h = (r, self', h') →
  h' = h ∧ _attractions self' = _attractions self ∧ _keys self' = _keys self.
Proof.
  unfold next, set_index. unfold_monad.
  destruct (as_list h (_keys self)) as [ks|]; simpl; [|by intros [= <- <- <-]].
  destruct (getitem ks (_index self)); simpl; by intros [= <- <- <-].
Qed.

Lemma next_not_None self h self' h' : next self h ≠ (Ret None, self', h').
Proof.
  unfold next, set_index. unfold_monad.
  destruct (as_list h (_keys self)) as [ks|]; simpl; [|done].
  by destruct (getitem ks (_index self)).
Qed.

(** The loop of the client from the cursor [i]: the keys from [i] on. *)
Lemma consume_from fuel : ∀ a k (i : nat) h ks,
  as_list h k = Some ks →
  (length ks - i ≤ fuel)%nat →
  consume fuel (Build a k (Z.of_nat i)) h
  = (Ret (Some <$> drop i ks), Build a k (Z.of_nat (max i (length ks))), h).
Proof.
  induction fuel as [|fuel IH]; intros a k i h ks Hks Hfuel; simpl.
  all: unfold bind at 1; rewrite (bus_has_next_eq (Build a k (Z.of_nat i)) h ks Hks); simpl;
    destruct (Z.ltb_spec (Z.of_nat i) (len ks)) as [Hlt|Hge]; unfold len in *.
  all: try lia.
  all: try (rewrite drop_ge by lia; unfold ret; do 3 f_equal; lia).
  destruct (lookup_lt_is_Some_2 ks i) as [key Hkey]; [lia|].
  unfold bind at 1.
  rewrite (next_key (Build a k (Z.of_nat i)) h ks key Hks) by (by simpl; rewrite getitem_nat). simpl.
  replace (Z.of_nat i + 1) with (Z.of_nat (S i)) by lia.
  unfold bind at 1. rewrite (IH a k (S i) h ks Hks) by lia.
  unfold ret. rewrite (drop_S _ _ _ Hkey). simpl. do 3 f_equal. lia.
Qed.

End BusFacts.

(** ** The store: allocation and the shuffle *)

Lemma fresh_unused (h : heap) : h !! fresh (dom h) = None.
Proof. apply not_elem_of_dom, is_fresh. Qed.

Lemma as_list_insert (h : heap) l xs : as_list (<[l := PyList xs]> h) l = Some xs.
Proof. unfold as_list. by rewrite lookup_insert_eq. Qed.

Lemma insert_fresh_lookup (h : heap) o l o' :
  h !! l = Some o' → <[fresh (dom h) := o]> h !! l = Some o'.
Proof.
  intros Hl. rewrite lookup_insert_ne; [done|].
  intros <-. by rewrite fresh_unused in Hl.
Qed.

Lemma as_dict_insert_fresh (h : heap) o a d :
  as_dict h a = Some d → as_dict (<[fresh (dom h) := o]> h) a = Some d.
Proof.
  unfold as_dict. intros Hd.
  destruct (h !! a) as [o'|] eqn:Ha; [|done].
  by rewrite (insert_fresh_lookup h o a o' Ha).
Qed.

Lemma as_list_insert_fresh (h : heap) o l xs :
  as_list h l = Some xs → as_list (<[fresh (dom h) := o]> h) l = Some xs.
Proof.
  unfold as_list. intros Hd.
  destruct (h !! l) as [o'|] eqn:Ha; [|done].
  by rewrite (insert_fresh_lookup h o l o' Ha).
Qed.

#[local] Arguments Nat.modulo : simpl never.

Lemma insert_Permutation_cons {A} (l : list A) i x y :
  l !! i = Some x → x :: <[i := y]> l ≡ₚ y :: l.
Proof.
  revert i. induction l as [|a l IH]; intros [|i] Hi; simplify_eq/=.
  - apply perm_swap.
  - rewrite perm_swap. rewrite (IH i Hi). apply perm_swap.
Qed.

Lemma swap_Permutation {A} (l : list A) i j xi xj :
  l !! i = Some xi → l !! j = Some xj →
  <[j := xi]> (<[i := xj]> l) ≡ₚ l.
Proof.
  intros Hi Hj. apply (Permutation_cons_inv (a := xj)).
  assert (<[i := xj]> l !! j = Some xj) as Hj'.
  { destruct (decide (i = j)) as [->|Hne].
    - apply list_lookup_insert_eq. by eapply lookup_lt_Some.
    - by rewrite list_lookup_insert_ne. }
  rewrite (insert_Permutation_cons _ _ _ xi Hj').
  by apply insert_Permutation_cons.
Qed.

Lemma shuffled_Permutation rand i : ∀ xs, shuffled rand i xs ≡ₚ xs.
Proof.
  induction i as [|i IH]; intros xs; simpl; [done|].
  destruct (xs !! _) as [xj|] eqn:Hj; [|done].
  destruct (xs !! S i) as [xi|] eqn:Hi; [|done].
  rewrite IH. by apply swap_Permutation.
Qed.

Lemma shuffle_from_eq {St} rand i : ∀ (x : loc) (s : St) (h : heap) xs,
  as_list h x = Some xs → (i < length xs)%nat →
  shuffle_from rand i x s h = (Ret tt, s, <[x := PyList (shuffled rand i xs)]> h).
Proof.
  induction i as [|i IH]; intros x s h xs Hxs Hi; simpl.
  { unfold ret. f_equal. symmetry. apply insert_id.
    unfold as_list in Hxs. by destruct (h !! x) as [[]|]; simplify_eq. }
  set (j := (rand (S i) `mod` S (i + 1))%nat).
  assert (j < length xs)%nat as Hj.
  { pose proof (Nat.mod_upper_bound (rand (S i)) (S (i + 1))). unfold j. lia. }
  destruct (lookup_lt_is_Some_2 xs _ Hj) as [xj Hxj].
  destruct (lookup_lt_is_Some_2 xs _ Hi) as [xi Hxi].
  unfold store_list. unfold_monad.
  rewrite Hxs. simpl. fold j. rewrite Hxj. simpl. rewrite Hxi. simpl. rewrite Hxs. simpl.
  rewrite !as_list_insert. simpl.
  rewrite (IH x s _ (<[j := xi]> (<[S i := xj]> xs)));
    [|by rewrite insert_insert_eq, as_list_insert
     |rewrite !length_insert; lia].
  by rewrite !insert_insert_eq.
Qed.

Lemma shuffle_eq {S} rand (x : loc) (s : S) (h : heap) xs :
  as_list h x = Some xs →
  ∃ xs', xs' ≡ₚ xs ∧ shuffle rand x s h = (Ret tt, s, <[x := PyList xs']> h).
Proof.
  intros Hxs. unfold shuffle. unfold_monad. rewrite Hxs. simpl.
  destruct xs as [|x0 xs].
  { exists []. split; [done|]. simpl. unfold ret. f_equal. symmetry.
    apply insert_id. unfold as_list in Hxs.
    by destruct (h !! x) as [[]|]; simplify_eq. }
  exists (shuffled rand (length (x0 :: xs) - 1) (x0 :: xs)).
  split; [apply shuffled_Permutation|].
  apply shuffle_from_eq; [done|]. simpl. lia.
Qed.

(** ** The constructors *)

Lemma SequentialIterator_init {S} a (s : S) h d :
  as_dict h a = Some d →
  SequentialIterator.__init__ a s h
  = (Ret (SequentialIterator.Build a (fresh (dom h)) 0 0), s,
     <[fresh (dom h) := PyList (dict_keys d)]> h).
Proof.
  intros Hd. unfold SequentialIterator.__init__, alloc. unfold_monad.
  by rewrite Hd.
Qed.

Lemma BusIterator_init {S} a (s : S) h d :
  as_dict h a = Some d →
  BusIterator.__init__ a s h
  = (Ret (BusIterator.Build a (fresh (dom h)) 0), s,
     <[fresh (dom h) := PyList (dict_keys d)]> h).
Proof.
  intros Hd. unfold BusIterator.__init__, alloc. unfold_monad.
  by rewrite Hd.
Qed.

Lemma RandomWalkIterator_init {S} rand a (s : S) h d :
  as_dict h a = Some d →
  ∃ ks, ks ≡ₚ dict_keys d ∧
    RandomWalkIterator.__init__ rand a s h
    = (Ret (RandomWalkIterator.Build a (fresh (dom h)) 0 0), s,
       <[fresh (dom h) := PyList ks]> h).
Proof.
  intros Hd. unfold RandomWalkIterator.__init__, alloc.
  destruct (shuffle_eq rand (fresh (dom h)) s
              (<[fresh (dom h) := PyList (dict_keys d)]> h) (dict_keys d))
    as (ks & Hperm & Hsh); [apply as_list_insert|].
  exists ks. split; [done|]. unfold_monad. rewrite Hd. simpl.
  rewrite Hsh. by rewrite insert_insert_eq.
Qed.

(** ** Calls through the interface *)

Lemma iterator_has_next_frame (it : iterator) h r it' h' :
  has_next it h = (r, it', h') → it' = it ∧ h' = h.
Proof.
  destruct it as [s|s|s]; simpl; unfold focus.
  - destruct (SequentialIterator.has_next s h) as [[r0 s'] h0] eqn:Hn.
    apply SequentialFacts.has_next_frame in Hn as [-> ->].
    by intros [= <- <- <-].
  - destruct (BusIterator.has_next s h) as [[r0 s'] h0] eqn:Hn.
    apply BusFacts.bus_has_next_frame in Hn as [-> ->].
    by intros [= <- <- <-].
  - rewrite RandomWalkFacts.has_next_sequential. unfold retag.
    destruct (SequentialIterator.has_next (as_sequential s) h)
      as [[r0 s'] h0] eqn:Hn.
    apply SequentialFacts.has_next_frame in Hn as [-> ->]. simpl.
    rewrite RandomWalkFacts.as_random_walk_as_sequential.
    by intros [= <- <- <-].
Qed.

Lemma iterator_next_exhausted (it : iterator) h it' h' :
  has_next it h = (Ret false, it', h') →
  next it h = (Raise IndexError, it, h).
Proof.
  destruct it as [s|s|s]; simpl; unfold focus.
  - destruct (SequentialIterator.has_next s h) as [[r0 s'] h0] eqn:Hn.
    intros [= -> <- <-].
    by rewrite (SequentialFacts.next_exhausted _ _ _ _ Hn).
  - destruct (BusIterator.has_next s h) as [[r0 s'] h0] eqn:Hn.
    intros [= -> <- <-].
    by rewrite (BusFacts.bus_next_exhausted _ _ _ _ Hn).
  - rewrite RandomWalkFacts.has_next_sequential,
      RandomWalkFacts.next_sequential. unfold retag.
    destruct (SequentialIterator.has_next (as_sequential s) h)
      as [[r0 s'] h0] eqn:Hn.
    simpl. intros [= -> <- <-].
    rewrite (SequentialFacts.next_exhausted _ _ _ _ Hn). simpl.
    by rewrite RandomWalkFacts.as_random_walk_as_sequential.
Qed.

Lemma iterator_next_heap (it : iterator) h : (next it h).2 = h.
Proof.
  destruct it as [s|s|s]; simpl; unfold focus.
  - destruct (SequentialIterator.next s h) as [[r0 s'] h0] eqn:Hn.
    rewrite SequentialFacts.next_unfold in Hn.
    by apply SequentialFacts.next_rec_frame in Hn as (-> & _).
  - destruct (BusIterator.next s h) as [[r0 s'] h0] eqn:Hn.
    by apply BusFacts.next_frame in Hn as (-> & _).
  - rewrite RandomWalkFacts.next_sequential. unfold retag.
    destruct (SequentialIterator.next (as_sequential s) h)
      as [[r0 s'] h0] eqn:Hn.
    rewrite SequentialFacts.next_unfold in Hn.
    by apply SequentialFacts.next_rec_frame in Hn as (-> & _).
Qed.

Lemma after_heap (c : method) (it : iterator) h : (after c it h).2 = h.
Proof.
  destruct c; unfold after.
  - destruct (has_next it h) as [[r it'] h'] eqn:Hn.
    by apply iterator_has_next_frame in Hn as [_ ->].
  - pose proof (iterator_next_heap it h) as Hn.
    by destruct (next it h) as [[r it'] h'].
Qed.

Lemma after_all_heap (cs : list method) : ∀ (it : iterator) h,
  (after_all cs it h).2 = h.
Proof.
  induction cs as [|c cs IH]; intros it h; simpl; [done|].
  pose proof (after_heap c it h) as Hc.
  destruct (after c it h) as [it' h']. simpl in Hc. subst h'. apply IH.
Qed.

Lemma after_exhausted (c : method) (it : iterator) h it' h' :
  has_next it h = (Ret false, it', h') → after c it h = (it, h).
Proof.
  intros Hn. destruct c; unfold after.
  - rewrite Hn. by apply iterator_has_next_frame in Hn as [-> ->].
  - by rewrite (iterator_next_exhausted _ _ _ _ Hn).
Qed.

Lemma after_all_exhausted (cs : list method) (it : iterator) h it' h' :
  has_next it h = (Ret false, it', h') → after_all cs it h = (it, h).
Proof.
  intros Hn. induction cs as [|c cs IH]; simpl; [done|].
  by rewrite (after_exhausted c _ _ _ _ Hn).
Qed.

(** ** The values of a whole walk on foot *)

Section walk.
Context (h : heap) (a k : loc) (ks : list string).
Hypothesis Hks : as_list h k = Some ks.
Hypothesis Hclosed : ∀ key, key ∈ ks → is_Some (exhibits_of h a key).

Lemma sequential_next_remaining (n : nat) : ∀ c e : nat,
  (length ks - c ≤ n)%nat → (c < length ks)%nat →
  match remaining h a ks c e with
  | [] =>
      SequentialIterator.next
        (SequentialIterator.Build a k (Z.of_nat c) (Z.of_nat e)) h
      = (Ret None, SequentialIterator.Build a k (len ks) 0, h)
  | x :: r =>
      ∃ c' e' : nat,
        SequentialIterator.next
          (SequentialIterator.Build a k (Z.of_nat c) (Z.of_nat e)) h
        = (Ret (Some x),
           SequentialIterator.Build a k (Z.of_nat c') (Z.of_nat e'), h)
        ∧ (c' < length ks)%nat
        ∧ remaining h a ks c' e' = r
  end.
Proof.
  induction n as [|n IH]; intros c e Hn Hc; [lia|].
  destruct (lookup_lt_is_Some_2 ks c Hc) as [key Hkey].
  destruct (Hclosed key) as [xs Hxs]; [by eapply list_elem_of_lookup_2|].
  pose proof Hxs as Hxs'. unfold exhibits_of in Hxs'.
  destruct (as_dict h a) as [d|] eqn:Hd; [|done].
  destruct (dict_get d key) as [l|] eqn:Hl; [|done].
  set (self := SequentialIterator.Build a k (Z.of_nat c) (Z.of_nat e)).
  assert (getitem ks (SequentialIterator._current_attraction self) = Some key)
    as Hget by (simpl; by rewrite getitem_nat).
  unfold remaining. rewrite Hkey. simpl. unfold group_lines at 1.
  rewrite Hxs. simpl.
  destruct (decide (e < length xs)%nat) as [He|He].
  - destruct (lookup_lt_is_Some_2 xs e He) as [x Hx].
    rewrite <- fmap_drop, (drop_S _ _ _ Hx). simpl.
    exists c, (S e). split; [|split; [done|]].
    + rewrite SequentialFacts.next_unfold.
      rewrite (SequentialFacts.next_rec_item self h ks Hks key d l xs
                 Hget Hd Hl Hxs' _ x) by (simpl; by rewrite getitem_nat).
      simpl. do 3 f_equal. lia.
    + unfold remaining. rewrite Hkey. simpl. unfold group_lines at 1.
      rewrite Hxs. simpl. by rewrite <- fmap_drop.
  - rewrite drop_ge by (rewrite length_fmap; lia). simpl.
    rewrite SequentialFacts.next_unfold.
    rewrite (SequentialFacts.next_rec_skip self h ks Hks key d l xs
               Hget Hd Hl Hxs') by (unfold len; simpl; lia).
    cbv zeta. simpl SequentialIterator._current_attraction.
    simpl SequentialIterator._attractions. simpl SequentialIterator._keys.
    assert (SequentialIterator.groups_left self h = (length ks - c)%nat) as Hg.
    { unfold SequentialIterator.groups_left. simpl. rewrite Hks.
      unfold len. lia. }
    rewrite Hg.
    destruct (Z.ltb_spec (Z.of_nat c + 1) (len ks)) as [Hlt|Hge];
      unfold len in *.
    + destruct (length ks - c)%nat as [|depth] eqn:Hdepth; [lia|].
      replace (Z.of_nat c + 1) with (Z.of_nat (S c)) by lia.
      change 0 with (Z.of_nat 0).
      specialize (IH (S c) O ltac:(lia) ltac:(lia)).
      rewrite SequentialFacts.next_rec_next; cycle 1.
      { unfold SequentialIterator.groups_left. simpl. rewrite Hks.
        unfold len. lia. }
      destruct (lookup_lt_is_Some_2 ks (S c)) as [key' Hkey']; [lia|].
      replace (lines_of h a (drop (S c) ks)) with (remaining h a ks (S c) 0);
        [exact IH|].
      unfold remaining. rewrite Hkey'. simpl.
      by rewrite (drop_S _ _ _ Hkey').
    + rewrite drop_ge by lia. simpl. do 3 f_equal. lia.
Qed.

Lemma sequential_consume_remaining (r : list string) : ∀ (c e fuel : nat),
  remaining h a ks c e = r → (c < length ks)%nat → (length r < fuel)%nat →
  consume fuel (SequentialIterator.Build a k (Z.of_nat c) (Z.of_nat e)) h
  = (Ret ((Some <$> r) ++ [None])%list,
     SequentialIterator.Build a k (len ks) 0, h).
Proof.
  induction r as [|x r IH]; intros c e fuel Hr Hc Hfuel.
  all: destruct fuel as [|fuel]; [simpl in Hfuel; lia|].
  all: pose proof (sequential_next_remaining (length ks) c e ltac:(lia) Hc)
         as Hnext; rewrite Hr in Hnext.
  all: simpl; unfold bind at 1;
    rewrite (SequentialFacts.has_next_eq
               (SequentialIterator.Build a k (Z.of_nat c) (Z.of_nat e)) h ks Hks);
    simpl; rewrite (proj2 (Z.ltb_lt (Z.of_nat c) (len ks)))
      by (unfold len; lia).
  - unfold bind at 1. rewrite Hnext. unfold bind at 1.
    assert (consume fuel (SequentialIterator.Build a k (len ks) 0) h
            = (Ret [], SequentialIterator.Build a k (len ks) 0, h)) as ->.
    { destruct fuel; simpl; unfold bind;
        rewrite (SequentialFacts.has_next_eq
                   (SequentialIterator.Build a k (len ks) 0) h ks Hks);
        simpl; by rewrite Z.ltb_irrefl. }
    done.
  - destruct Hnext as (c' & e' & Hnext & Hc' & Hr').
    unfold bind at 1. rewrite Hnext. unfold bind at 1.
    rewrite (IH c' e' fuel Hr' Hc') by (simpl in Hfuel; lia). done.
Qed.

(** The loop of the client over a sequential iterator at its start obtains
    every exhibit of every group, in the order of the keys, and then, unless
    there is no group at all, one [None]. *)
Lemma sequential_consume fuel :
  (length (lines_of h a ks) < fuel)%nat →
  consume fuel (SequentialIterator.Build a k 0 0) h
  = (Ret ((Some <$> lines_of h a ks)
          ++ (if ks is [] then [] else [None]))%list,
     SequentialIterator.Build a k (len ks) 0, h).
Proof.
  intros Hfuel.
  remember (if ks is [] then [] else [None]) as tail eqn:Htail.
  destruct (decide (ks = [])) as [Hnil|Hne].
  { rewrite Hnil in Htail. subst tail.
    destruct fuel; simpl; unfold bind;
      rewrite (SequentialFacts.has_next_eq
                 (SequentialIterator.Build a k 0 0) h ks Hks);
      by rewrite Hnil. }
  assert (tail = [None] ∧ (0 < length ks)%nat) as [-> Hpos].
  { subst tail. clear -Hne. destruct ks; [done|]. simpl. split; [done|lia]. }
  change 0 with (Z.of_nat 0).
  apply sequential_consume_remaining; [|done..].
  unfold remaining.
  destruct (lookup_lt_is_Some_2 ks O Hpos) as [key Hkey].
  rewrite Hkey. simpl. rewrite drop_0.
  transitivity (lines_of h a (drop 0 ks)); [|by rewrite drop_0].
  by rewrite (drop_S _ _ _ Hkey).
Qed.

End walk.

Lemma exhibits_of_insert_fresh (h : heap) o a key xs :
  exhibits_of h a key = Some xs →
  exhibits_of (<[fresh (dom h) := o]> h) a key = Some xs.
Proof.
  unfold exhibits_of.
  destruct (as_dict h a) as [d|] eqn:Hd; [|done].
  rewrite (as_dict_insert_fresh _ _ _ _ Hd).
  destruct (dict_get d key) as [l|]; [|done].
  apply as_list_insert_fresh.
Qed.

(** From the constructor on: the walk on foot over a collection whose groups
    all have their list of exhibits. *)
Lemma sequential_walk_of_collection {St} (a : loc) (s : St) (h : heap) d fuel :
  as_dict h a = Some d →
  (∀ key, key ∈ dict_keys d → is_Some (exhibits_of h a key)) →
  (length (lines_of h a (dict_keys d)) < fuel)%nat →
  ∃ it h',
    SequentialIterator.__init__ a s h = (Ret it, s, h')
    ∧ (consume fuel it h').1.1
      = Ret ((Some <$> lines_of h a (dict_keys d))
             ++ (if dict_keys d is [] then [] else [None]))%list.
Proof.
  intros Hd Hclosed Hfuel. eexists _, _.
  split; [by apply SequentialIterator_init|].
  set (h' := <[fresh (dom h) := PyList (dict_keys d)]> h).
  assert (lines_of h' a (dict_keys d) = lines_of h a (dict_keys d)) as Hlines.
  { unfold lines_of. f_equal. apply list_fmap_ext. intros i key Hkey.
    destruct (Hclosed key) as [xs Hxs]; [by eapply list_elem_of_lookup_2|].
    unfold group_lines, h'.
    by rewrite Hxs, (exhibits_of_insert_fresh _ _ _ _ _ Hxs). }
  rewrite (sequential_consume h' a (fresh (dom h)) (dict_keys d)).
  - simpl. by rewrite Hlines.
  - apply as_list_insert.
  - intros key Hkey. destruct (Hclosed key Hkey) as [xs Hxs].
    exists xs. by apply exhibits_of_insert_fresh.
  - by rewrite Hlines.
Qed.

(** * The claims *)

(** C1 (the code departs from it).  The claim: for the sequential and random
    strategies, [has_next()] is true exactly when the following [next()]
    yields a formatted string.  On the collection [{"A": ["x"]}], once the
    one exhibit has been returned, [has_next()] is still [True] and the
    following [next()] returns [None]; only then does [has_next()] turn
    [False].  This holds for the iterator made by [create_iterator()] and,
    whatever the generator draws, for the one made by
    [create_iterator("random_walk")]. *)
Theorem has_next_true_before_next_None (rand : nat → nat) :
  let calls (type_ : option string) :=
    run (let* a := new_dict [("A", ["x"])] in
         let* (it, _) := call (CityAttractions.Build a)
                           (CityAttractions.create_iterator rand type_) in
         let* (v1, it) := call it next in
         let* (b1, it) := call it has_next in
         let* (v2, it) := call it next in
         let* (b2, _) := call it has_next in
         ret (class_name it, v1, b1, v2, b2)) tt ∅ in
  calls None = Ret ("SequentialIterator", Some "A: x", true, None, false)
  ∧ calls (Some "random_walk")
    = Ret ("RandomWalkIterator", Some "A: x", true, None, false).
Proof. split; vm_compute; reflexivity. Qed.

(** C3 (the code departs from it).  The claim: the loop of the client
    obtains exactly as many values as there are items, each a formatted
    string; on [{"A": ["x","y"], "B": []}] exactly ["A: x"] and ["A: y"].
    The loop obtains a third value, [None], on that collection, and
    [main()] prints the line [None] after the eight exhibits of the built-in
    collection, in the walk on foot and in the random walk
    ([sequential_walk_of_collection] has the general form). *)
Theorem consume_yields_trailing_None :
  run (let* a := new_dict [("A", ["x"; "y"]); ("B", [])] in
       let* it := SequentialIterator.__init__ a in
       let* (out, _) := call it (consume 3) in
       ret out) tt ∅
  = Ret [Some "A: x"; Some "A: y"; None]
  ∧ run (main (λ _, O) 9) tt ∅
    = Ret ["Пешком:";
           "Эрмитаж: Картина 1"; "Эрмитаж: Картина 2"; "Эрмитаж: Статуя 1";
           "Исаакиевский собор: Мозаика 1"; "Исаакиевский собор: Люстра";
           "Исаакиевский собор: Витраж";
           "Петропавловская крепость: Пушка";
           "Петропавловская крепость: Музей истории";
           "None";
           newline +:+ "На автобусе:";
           "Эрмитаж"; "Исаакиевский собор"; "Петропавловская крепость";
           newline +:+ "Случайная прогулка:";
           "Исаакиевский собор: Мозаика 1"; "Исаакиевский собор: Люстра";
           "Исаакиевский собор: Витраж";
           "Петропавловская крепость: Пушка";
           "Петропавловская крепость: Музей истории";
           "Эрмитаж: Картина 1"; "Эрмитаж: Картина 2"; "Эрмитаж: Статуя 1";
           "None"].
Proof. split; vm_compute; reflexivity. Qed.

(** C2, as the specification states it, fails: where [has_next()] is
    [False], [next()] raises, but the exception is an [IndexError] and not an
    [ExhaustedIterator]. *)
Lemma exhausted_next_is_not_ExhaustedIterator :
  ∃ it h, exhausted_bus = Ret (it, h)
          ∧ run has_next it h = Ret false
          ∧ run next it h = Raise "IndexError"
          ∧ run next it h ≠ Raise "ExhaustedIterator".
Proof.
  eexists _, _. split; [vm_compute; reflexivity|].
  split; [vm_compute; reflexivity|].
  split; [vm_compute; reflexivity|]. vm_compute. discriminate.
Qed.

(** C2, amended.  For every kind of iterator, a [next()] called where
    [has_next()] has returned [False] raises [IndexError] and changes
    neither the iterator nor the store; the caller of [next()] gets the
    exception, and no value, [None] included, is returned. *)
Theorem exhausted_next_raises_IndexError (it : iterator) (h : heap) it' h' :
  has_next it h = (Ret false, it', h') →
  next it h = (Raise IndexError, it, h)
  ∧ (∀ v, run next it h ≠ Ret v)
  ∧ (∀ S (s : S), call it next s h = (Raise IndexError, s, h)).
Proof.
  intros Hn. pose proof (iterator_next_exhausted _ _ _ _ Hn) as Hnext.
  split; [done|]. split.
  - intros v. unfold run. by rewrite Hnext.
  - intros S s. unfold call. by rewrite Hnext.
Qed.

Lemma exhausted_next_raises_IndexError_witness :
  ∃ it h, exhausted_bus = Ret (it, h)
          ∧ has_next it h = (Ret false, it, h)
          ∧ next it h = (Raise IndexError, it, h).
Proof.
  eexists _, _. split; [vm_compute; reflexivity|].
  assert (has_next (Bus (BusIterator.Build 1%nat 2%nat 1))
            (<[2%nat := PyList ["A"]]>
               (<[1%nat := PyDict [("A", 0%nat)]]>
                  (<[0%nat := PyList ["x"]]> ∅)))
          = (Ret false, Bus (BusIterator.Build 1%nat 2%nat 1),
             <[2%nat := PyList ["A"]]>
               (<[1%nat := PyDict [("A", 0%nat)]]>
                  (<[0%nat := PyList ["x"]]> ∅)))) as Hn.
  { vm_compute. reflexivity. }
  split; [exact Hn|].
  exact (proj1 (exhausted_next_raises_IndexError _ _ _ _ Hn)).
Defined.

(** C5, as the specification states it, fails: the kind [random] of the
    specification's enumeration selects the sequential iterator, and
    [random_walk], which is outside [{sequential, bus, random}], does not
    fall back to the sequential iterator. *)
Lemma create_iterator_random_is_sequential :
  created_class (λ _, O) (Some "random") = Ret "SequentialIterator"
  ∧ created_class (λ _, O) (Some "random_walk") = Ret "RandomWalkIterator".
Proof. split; vm_compute; reflexivity. Qed.

(** C5, amended.  [create_iterator] does not fail on a collection; without
    an argument it makes what it makes for ["sequential"]; ["bus"] selects
    the bus iterator, ["random_walk"] the shuffled one, and every other
    value, ["random"] included, the sequential one. *)
Theorem create_iterator_dispatch rand (type_ : option string)
    (self : CityAttractions.t) (h : heap) d :
  as_dict h (CityAttractions._attractions self) = Some d →
  ∃ it h',
    CityAttractions.create_iterator rand type_ self h = (Ret it, self, h')
    ∧ class_name it =
        (if decide (type_ = Some "bus") then "BusIterator"
         else if decide (type_ = Some "random_walk") then "RandomWalkIterator"
         else "SequentialIterator")
    ∧ (type_ = None →
       CityAttractions.create_iterator rand (Some "sequential") self h
       = (Ret it, self, h')).
Proof.
  intros Hd.
  assert (∀ ty, ∃ it h',
    CityAttractions.create_iterator rand (Some ty) self h = (Ret it, self, h')
    ∧ class_name it =
        (if String.eqb ty "bus" then "BusIterator"
         else if String.eqb ty "random_walk" then "RandomWalkIterator"
         else "SequentialIterator")) as Hsome.
  { intros ty. unfold CityAttractions.create_iterator. simpl.
    unfold bind at 1. unfold get_self.
    destruct (String.eqb ty "bus").
    { unfold bind. rewrite (BusIterator_init _ _ _ _ Hd). by eexists _, _. }
    destruct (String.eqb ty "random_walk").
    { destruct (RandomWalkIterator_init rand _ self _ _ Hd) as (ks & _ & Hinit).
      unfold bind. rewrite Hinit. by eexists _, _. }
    unfold bind. rewrite (SequentialIterator_init _ _ _ _ Hd).
    by eexists _, _. }
  destruct type_ as [ty|].
  - destruct (Hsome ty) as (it & h' & Hc & Hn).
    exists it, h'. split; [done|]. split; [|done]. rewrite Hn.
    destruct (String.eqb_spec ty "bus") as [->|Hbus].
    { by rewrite decide_True. }
    rewrite decide_False by congruence.
    destruct (String.eqb_spec ty "random_walk") as [->|Hrw].
    { by rewrite decide_True. }
    by rewrite decide_False by congruence.
  - destruct (Hsome "sequential") as (it & h' & Hc & Hn).
    exists it, h'. split; [exact Hc|]. split; [|done].
    rewrite Hn. reflexivity.
Qed.

Lemma create_iterator_dispatch_witness :
  ∃ it h',
    CityAttractions.create_iterator (λ _, O) (Some "random")
      (CityAttractions.Build 1%nat)
      (<[1%nat := PyDict [("A", 0%nat)]]> (<[0%nat := PyList ["x"]]> ∅))
    = (Ret it, CityAttractions.Build 1%nat, h')
    ∧ class_name it = "SequentialIterator".
Proof.
  destruct (create_iterator_dispatch (λ _, O) (Some "random")
              (CityAttractions.Build 1%nat)
              (<[1%nat := PyDict [("A", 0%nat)]]> (<[0%nat := PyList ["x"]]> ∅))
              [("A", 0%nat)])
    as (it & h' & Hc & Hn & _).
  { vm_compute. reflexivity. }
  exists it, h'. split; [exact Hc|]. rewrite Hn. vm_compute. reflexivity.
Defined.

(** C4.  The bus iterator made on a collection holds the keys of the dict in
    insertion order; [has_next()] is [True] exactly while the cursor is
    below the number of groups; [next()] returns the bare key under the
    cursor and moves the cursor by one; and the loop of the client obtains
    the keys in order, one per group whether or not the group has items,
    and stops with the cursor at the number of groups. *)
Theorem bus_visits_each_group_once {St} (a : loc) (s : St) (h : heap) d :
  as_dict h a = Some d →
  ∃ k h',
    BusIterator.__init__ a s h = (Ret (BusIterator.Build a k 0), s, h')
    ∧ as_list h' k = Some (dict_keys d)
    ∧ (∀ i : Z,
         BusIterator.has_next (BusIterator.Build a k i) h'
         = (Ret (i <? len d), BusIterator.Build a k i, h'))
    ∧ (∀ (i : nat) key,
         dict_keys d !! i = Some key →
         BusIterator.next (BusIterator.Build a k (Z.of_nat i)) h'
         = (Ret (Some key), BusIterator.Build a k (Z.of_nat i + 1), h'))
    ∧ (∀ fuel, (length d ≤ fuel)%nat →
         ∃ out,
           consume fuel (BusIterator.Build a k 0) h'
           = (Ret out, BusIterator.Build a k (len d), h')
           ∧ out = Some <$> dict_keys d
           ∧ length out = length d).
Proof.
  intros Hd. eexists _, _. split; [by apply BusIterator_init|].
  set (k := fresh (dom h)). set (h' := <[k := _]> h).
  assert (as_list h' k = Some (dict_keys d)) as Hk by apply as_list_insert.
  assert (len (dict_keys d) = len d) as Hlen.
  { unfold len, dict_keys. by rewrite length_fmap. }
  split; [done|]. split; [|split].
  - intros i. rewrite (BusFacts.bus_has_next_eq (BusIterator.Build a k i) h' _ Hk).
    simpl. by rewrite Hlen.
  - intros i key Hkey.
    apply (BusFacts.next_key (BusIterator.Build a k (Z.of_nat i)) h' _ _ Hk).
    simpl. by rewrite getitem_nat.
  - intros fuel Hfuel. eexists. split; [|split; [reflexivity|]].
    + change 0 with (Z.of_nat 0).
      rewrite (BusFacts.consume_from fuel a k 0 h' _ Hk).
      * rewrite drop_0. do 3 f_equal. unfold len, dict_keys.
        rewrite length_fmap. lia.
      * unfold dict_keys. rewrite length_fmap. lia.
    + unfold dict_keys. by rewrite !length_fmap.
Qed.

Lemma bus_visits_each_group_once_witness :
  let h := <[2%nat := PyDict [("A", 0%nat); ("B", 1%nat)]]>
             (<[1%nat := PyList []]> (<[0%nat := PyList ["x"; "y"]]> ∅)) in
  as_dict h 2%nat = Some [("A", 0%nat); ("B", 1%nat)]
  ∧ ∃ k h', BusIterator.__init__ 2%nat tt h = (Ret (BusIterator.Build 2%nat k 0), tt, h')
            ∧ consume 2 (BusIterator.Build 2%nat k 0) h'
              = (Ret [Some "A"; Some "B"], BusIterator.Build 2%nat k 2, h').
Proof.
  intros h.
  assert (as_dict h 2%nat = Some [("A", 0%nat); ("B", 1%nat)]) as Hd.
  { vm_compute. reflexivity. }
  split; [exact Hd|].
  destruct (bus_visits_each_group_once 2%nat tt h _ Hd)
    as (k & h' & Hinit & _ & _ & _ & Hloop).
  exists k, h'. split; [exact Hinit|].
  destruct (Hloop 2%nat) as (out & Hout & -> & _); [simpl; lia|].
  exact Hout.
Defined.

(** C6.  For every kind of iterator and every state, [has_next()] leaves
    the iterator and the store as they were, so that calling it again gives
    the same answer; and once it has returned [False], every sequence of
    further calls of [has_next()] and [next()] leaves the state where it is,
    and [has_next()] returns [False] after it. *)
Theorem has_next_is_pure_and_exhaustion_permanent (it : iterator) (h : heap) :
  (∀ r it' h',
     has_next it h = (r, it', h') →
     it' = it ∧ h' = h ∧ has_next it' h' = (r, it', h'))
  ∧ (∀ it' h',
       has_next it h = (Ret false, it', h') →
       ∀ cs, after_all cs it h = (it, h)
             ∧ has_next (after_all cs it h).1 (after_all cs it h).2
               = (Ret false, it, h)).
Proof.
  split.
  - intros r it' h' Hn.
    destruct (iterator_has_next_frame _ _ _ _ _ Hn) as [-> ->]. by rewrite Hn.
  - intros it' h' Hn cs.
    rewrite (after_all_exhausted cs _ _ _ _ Hn). simpl.
    split; [done|].
    by destruct (iterator_has_next_frame _ _ _ _ _ Hn) as [<- <-].
Qed.

Lemma has_next_is_pure_and_exhaustion_permanent_witness :
  let h := <[2%nat := PyList ["A"]]>
             (<[1%nat := PyDict [("A", 0%nat)]]>
                (<[0%nat := PyList ["x"]]> ∅)) in
  let it := Sequential (SequentialIterator.Build 1%nat 2%nat 1 0) in
  has_next it h = (Ret false, it, h)
  ∧ has_next (after_all [Next; HasNext; Next] it h).1
             (after_all [Next; HasNext; Next] it h).2
    = (Ret false, it, h).
Proof.
  intros h it.
  assert (has_next it h = (Ret false, it, h)) as Hn.
  { vm_compute. reflexivity. }
  split; [exact Hn|].
  exact (proj2 (proj2 (has_next_is_pure_and_exhaustion_permanent it h)
                  it h Hn [Next; HasNext; Next])).
Defined.

(** C7.  Making a random-walk iterator on a collection puts its list of
    keys at an address that was not in use, holding a permutation of the
    keys of the dict; every object that was in the store, the dict and the
    lists of exhibits among them, is what it was; and the store stays as the
    constructor left it through every sequence of calls of [has_next()] and
    [next()]. *)
Theorem random_walk_shuffles_a_private_copy {St} rand (a : loc) (s : St)
    (h : heap) d :
  as_dict h a = Some d →
  ∃ k ks h',
    RandomWalkIterator.__init__ rand a s h
    = (Ret (RandomWalkIterator.Build a k 0 0), s, h')
    ∧ h !! k = None
    ∧ as_list h' k = Some ks
    ∧ ks ≡ₚ dict_keys d
    ∧ (∀ l o, h !! l = Some o → h' !! l = Some o)
    ∧ as_dict h' a = Some d
    ∧ (∀ key xs, exhibits_of h a key = Some xs → exhibits_of h' a key = Some xs)
    ∧ (∀ cs, (after_all cs (RandomWalk (RandomWalkIterator.Build a k 0 0)) h').2
             = h').
Proof.
  intros Hd.
  destruct (RandomWalkIterator_init rand a s h d Hd) as (ks & Hperm & Hinit).
  exists (fresh (dom h)), ks, (<[fresh (dom h) := PyList ks]> h).
  split; [done|]. split; [apply fresh_unused|].
  split; [apply as_list_insert|]. split; [done|].
  split; [intros l o; apply insert_fresh_lookup|].
  split; [by apply as_dict_insert_fresh|].
  split; [|intros cs; apply after_all_heap].
  intros key xs. unfold exhibits_of.
  rewrite (as_dict_insert_fresh _ _ _ _ Hd), Hd.
  destruct (dict_get d key) as [l|]; [|done].
  apply as_list_insert_fresh.
Qed.

Lemma random_walk_shuffles_a_private_copy_witness :
  let h := <[2%nat := PyDict [("A", 0%nat); ("B", 1%nat)]]>
             (<[1%nat := PyList []]> (<[0%nat := PyList ["x"; "y"]]> ∅)) in
  as_dict h 2%nat = Some [("A", 0%nat); ("B", 1%nat)]
  ∧ ∃ k ks h',
      RandomWalkIterator.__init__ (λ _, O) 2%nat tt h
      = (Ret (RandomWalkIterator.Build 2%nat k 0 0), tt, h')
      ∧ as_list h' k = Some ks
      ∧ ks ≡ₚ ["A"; "B"]
      ∧ as_dict h' 2%nat = Some [("A", 0%nat); ("B", 1%nat)].
Proof.
  intros h.
  assert (as_dict h 2%nat = Some [("A", 0%nat); ("B", 1%nat)]) as Hd.
  { vm_compute. reflexivity. }
  split; [exact Hd|].
  destruct (random_walk_shuffles_a_private_copy (λ _, O) 2%nat tt h _ Hd)
    as (k & ks & h' & Hinit & _ & Hk & Hperm & _ & Hd' & _).
  exists k, ks, h'. split; [exact Hinit|]. split; [exact Hk|].
  split; [exact Hperm|exact Hd'].
Defined.

(** What [SequentialFacts.next_rec_None] says, on [next] and with
    [exhibits_of]. *)
Lemma sequential_next_None self h self' h' :
  SequentialIterator.next self h = (Ret None, self', h') →
  ∃ ks key xs,
    as_list h (SequentialIterator._keys self) = Some ks
    ∧ SequentialIterator.has_next self h = (Ret true, self, h)
    ∧ getitem ks (SequentialIterator._current_attraction self) = Some key
    ∧ exhibits_of h (SequentialIterator._attractions self) key = Some xs
    ∧ len xs ≤ SequentialIterator._current_exhibit self
    ∧ (∀ i key', SequentialIterator._current_attraction self < i →
         getitem ks i = Some key' →
         exhibits_of h (SequentialIterator._attractions self) key' = Some [])
    ∧ h' = h
    ∧ SequentialIterator._current_attraction self' = len ks
    ∧ SequentialIterator.has_next self' h' = (Ret false, self', h').
Proof.
  rewrite SequentialFacts.next_unfold. intros Hnext.
  destruct (as_list h (SequentialIterator._keys self)) as [ks|] eqn:Hks; cycle 1.
  { destruct (SequentialIterator.groups_left self h); simpl in Hnext;
      unfold_monad; by rewrite Hks in Hnext. }
  destruct (SequentialFacts.next_rec_frame _ _ _ _ _ _ Hnext)
    as (-> & Ha & Hk & _).
  destruct (SequentialFacts.next_rec_None _ _ _ _ _ ks Hnext Hks)
    as (Hlt & Hend & (key & d & l & xs & Hkey & Hd & Hl & Hxs & Hge) & Htail).
  exists ks, key, xs. split; [done|]. split.
  { rewrite (SequentialFacts.has_next_eq _ _ _ Hks).
    by rewrite (proj2 (Z.ltb_lt _ _) Hlt). }
  split; [done|]. split.
  { unfold exhibits_of. by rewrite Hd, Hl. }
  split; [done|]. split.
  { intros i key' Hi Hget.
    destruct (Htail i key' Hi Hget) as (d' & l' & Hd' & Hl' & Hnil).
    unfold exhibits_of. by rewrite Hd', Hl'. }
  split; [done|]. split; [done|].
  rewrite <- Hk in Hks. rewrite (SequentialFacts.has_next_eq _ _ _ Hks).
  rewrite Hend. by rewrite Z.ltb_irrefl.
Qed.

(** C8.  For each of the three classes, [next()] called where [has_next()]
    returns [False] raises [IndexError] and changes nothing.  [BusIterator]
    never returns [None].  When [next()] of [SequentialIterator] or of
    [RandomWalkIterator] returns [None], [has_next()] was [True] before the
    call, the attraction under the cursor had no exhibit left, every
    attraction after it is empty, and the call has moved the cursor to the
    end of the keys, where [has_next()] is [False]. *)
Theorem exhausted_IndexError_and_None_from_empty_tail :
  (∀ self h self' h',
     SequentialIterator.has_next self h = (Ret false, self', h') →
     SequentialIterator.next self h = (Raise IndexError, self, h))
  ∧ (∀ self h self' h',
       BusIterator.has_next self h = (Ret false, self', h') →
       BusIterator.next self h = (Raise IndexError, self, h))
  ∧ (∀ self h self' h',
       RandomWalkIterator.has_next self h = (Ret false, self', h') →
       RandomWalkIterator.next self h = (Raise IndexError, self, h))
  ∧ (∀ self h self' h', BusIterator.next self h ≠ (Ret None, self', h'))
  ∧ (∀ self h self' h',
       SequentialIterator.next self h = (Ret None, self', h') →
       ∃ ks key xs,
         as_list h (SequentialIterator._keys self) = Some ks
         ∧ SequentialIterator.has_next self h = (Ret true, self, h)
         ∧ getitem ks (SequentialIterator._current_attraction self) = Some key
         ∧ exhibits_of h (SequentialIterator._attractions self) key = Some xs
         ∧ len xs ≤ SequentialIterator._current_exhibit self
         ∧ (∀ i key', SequentialIterator._current_attraction self < i →
              getitem ks i = Some key' →
              exhibits_of h (SequentialIterator._attractions self) key'
              = Some [])
         ∧ h' = h
         ∧ SequentialIterator._current_attraction self' = len ks
         ∧ SequentialIterator.has_next self' h' = (Ret false, self', h'))
  ∧ (∀ self h self' h',
       RandomWalkIterator.next self h = (Ret None, self', h') →
       ∃ ks key xs,
         as_list h (RandomWalkIterator._keys self) = Some ks
         ∧ RandomWalkIterator.has_next self h = (Ret true, self, h)
         ∧ getitem ks (RandomWalkIterator._current_attraction self) = Some key
         ∧ exhibits_of h (RandomWalkIterator._attractions self) key = Some xs
         ∧ len xs ≤ RandomWalkIterator._current_exhibit self
         ∧ (∀ i key', RandomWalkIterator._current_attraction self < i →
              getitem ks i = Some key' →
              exhibits_of h (RandomWalkIterator._attractions self) key'
              = Some [])
         ∧ h' = h
         ∧ RandomWalkIterator._current_attraction self' = len ks
         ∧ RandomWalkIterator.has_next self' h' = (Ret false, self', h')).
Proof.
  split; [exact SequentialFacts.next_exhausted|].
  split; [exact BusFacts.bus_next_exhausted|].
  split.
  { intros self h self' h'.
    rewrite RandomWalkFacts.has_next_sequential,
      RandomWalkFacts.next_sequential. unfold retag.
    destruct (SequentialIterator.has_next (as_sequential self) h)
      as [[r0 s0] h0] eqn:Hn.
    simpl. intros [= -> _ _].
    rewrite (SequentialFacts.next_exhausted _ _ _ _ Hn). simpl.
    by rewrite RandomWalkFacts.as_random_walk_as_sequential. }
  split; [exact BusFacts.next_not_None|].
  split; [exact sequential_next_None|].
  intros self h self' h'.
  rewrite RandomWalkFacts.next_sequential. unfold retag.
  destruct (SequentialIterator.next (as_sequential self) h)
    as [[r0 s0] h0] eqn:Hn.
  simpl. intros [= -> <- ->].
  destruct (sequential_next_None _ _ _ _ Hn)
    as (ks & key & xs & Hks & Hhn & Hkey & Hxs & Hge & Htail & -> & Hend & Hhn').
  exists ks, key, xs. split; [done|]. split.
  { rewrite RandomWalkFacts.has_next_sequential, Hhn. unfold retag. simpl.
    by rewrite RandomWalkFacts.as_random_walk_as_sequential. }
  split; [done|]. split; [done|]. split; [done|]. split; [done|].
  split; [done|]. split; [done|].
  rewrite RandomWalkFacts.has_next_sequential.
  rewrite RandomWalkFacts.as_sequential_as_random_walk, Hhn'. done.
Qed.

Lemma exhausted_IndexError_and_None_from_empty_tail_witness :
  let h := <[3%nat := PyList ["A"; "B"]]>
             (<[2%nat := PyDict [("A", 0%nat); ("B", 1%nat)]]>
                (<[1%nat := PyList []]> (<[0%nat := PyList ["x"; "y"]]> ∅))) in
  let self := SequentialIterator.Build 2%nat 3%nat 0 2 in
  let self' := SequentialIterator.Build 2%nat 3%nat 2 0 in
  SequentialIterator.next self h = (Ret None, self', h)
  ∧ SequentialIterator.has_next self h = (Ret true, self, h)
  ∧ SequentialIterator.has_next self' h = (Ret false, self', h)
  ∧ SequentialIterator.next self' h = (Raise IndexError, self', h).
Proof.
  intros h self self'.
  assert (SequentialIterator.next self h = (Ret None, self', h)) as Hnext.
  { vm_compute. reflexivity. }
  destruct exhausted_IndexError_and_None_from_empty_tail
    as (Hseq & _ & _ & _ & Hnone & _).
  destruct (Hnone self h self' h Hnext)
    as (ks & key & xs & _ & Hhn & _ & _ & _ & _ & _ & _ & Hhn').
  split; [exact Hnext|]. split; [exact Hhn|]. split; [exact Hhn'|].
  exact (Hseq self' h self' h Hhn').
Defined.

Lemma consume_sequential fuel : ∀ (self : RandomWalkIterator.t) h,
  consume fuel self h = retag (consume fuel (as_sequential self) h).
Proof.
  induction fuel as [|fuel IH]; intros self h; simpl.
  all: unfold bind, ret; rewrite RandomWalkFacts.has_next_sequential.
  all: destruct (SequentialIterator.has_next (as_sequential self) h)
         as [[[[|]| |] s0] h0] eqn:Hn; unfold retag; simpl; try done.
  rewrite RandomWalkFacts.next_sequential.
  rewrite RandomWalkFacts.as_sequential_as_random_walk.
  destruct (SequentialIterator.next s0 h0) as [[[v| |] s1] h1]; unfold retag;
    simpl; try done.
  rewrite IH. rewrite RandomWalkFacts.as_sequential_as_random_walk.
  by destruct (consume fuel s1 h1) as [[[vs| |] s2] h2].
Qed.

(** C9.  [RandomWalkIterator] answers [has_next()] and [next()] as
    [SequentialIterator] does on the same attributes, so the loop of the
    client obtains the same values from both; and the constructor of
    [RandomWalkIterator] is the constructor of [SequentialIterator] followed
    by one shuffle of the list of keys, which leaves a permutation of that
    list behind the reference. *)
Theorem random_walk_is_sequential_after_one_shuffle :
  (∀ self h,
     RandomWalkIterator.has_next self h
     = retag (SequentialIterator.has_next (as_sequential self) h))
  ∧ (∀ self h,
       RandomWalkIterator.next self h
       = retag (SequentialIterator.next (as_sequential self) h))
  ∧ (∀ fuel (self : RandomWalkIterator.t) h,
       consume fuel self h = retag (consume fuel (as_sequential self) h))
  ∧ (∀ St rand a (s : St) h,
       RandomWalkIterator.__init__ rand a s h
       = (let* it := SequentialIterator.__init__ a in
          do shuffle rand (SequentialIterator._keys it) then
          ret (as_random_walk it)) s h)
  ∧ (∀ St rand x (s : St) h xs,
       as_list h x = Some xs →
       ∃ xs', xs' ≡ₚ xs
              ∧ shuffle rand x s h = (Ret tt, s, <[x := PyList xs']> h)).
Proof.
  split; [exact RandomWalkFacts.has_next_sequential|].
  split; [exact RandomWalkFacts.next_sequential|].
  split; [exact consume_sequential|].
  split; [|intros St; exact (@shuffle_eq St)].
  intros St rand a s h.
  unfold RandomWalkIterator.__init__, SequentialIterator.__init__, alloc.
  unfold_monad. destruct (as_dict h a) as [d|]; simpl; [|done].
  by destruct (shuffle rand (fresh (dom h)) s _) as [[[[]| |] s0] h0].
Qed.

Lemma random_walk_is_sequential_after_one_shuffle_witness :
  let h := <[0%nat := PyList ["A"; "B"; "C"]]> ∅ in
  as_list h 0%nat = Some ["A"; "B"; "C"]
  ∧ ∃ xs', xs' ≡ₚ ["A"; "B"; "C"]
           ∧ shuffle (λ _, O) 0%nat tt h = (Ret tt, tt, <[0%nat := PyList xs']> h).
Proof.
  intros h.
  assert (as_list h 0%nat = Some ["A"; "B"; "C"]) as Hxs.
  { vm_compute. reflexivity. }
  split; [exact Hxs|].
  exact (proj2 (proj2 (proj2 (proj2 random_walk_is_sequential_after_one_shuffle)))
           unit (λ _, O) 0%nat tt h _ Hxs).
Defined.

Lemma sequential_next_in_range self h ks r self' h' :
  as_list h (SequentialIterator._keys self) = Some ks →
  0 ≤ SequentialIterator._current_attraction self ≤ len ks →
  SequentialIterator.next self h = (r, self', h') →
  h' = h
  ∧ as_list h' (SequentialIterator._keys self') = Some ks
  ∧ SequentialIterator._current_attraction self
    ≤ SequentialIterator._current_attraction self'
  ∧ 0 ≤ SequentialIterator._current_attraction self' ≤ len ks.
Proof.
  intros Hks Hin. rewrite SequentialFacts.next_unfold. intros Hnext.
  destruct (SequentialFacts.next_rec_frame _ _ _ _ _ _ Hnext)
    as (-> & _ & Hk & Hle & Hinv).
  split; [done|]. split; [by rewrite Hk|]. split; [done|].
  split; [lia|]. apply Hinv; [done|lia].
Qed.

(** C10.  [next()] of [SequentialIterator] and of [RandomWalkIterator]
    always comes to an end: it calls itself only from the state with the
    cursor over the attractions moved by one, so a nesting of the number of
    groups from the cursor on is never used up, and a larger bound gives the
    same outcome.  A call made with the cursor between zero and the number
    of groups leaves it there, and never moves it back. *)
Theorem next_terminates_with_cursor_in_range :
  (∀ self h, (SequentialIterator.next self h).1.1 ≠ Diverged)
  ∧ (∀ depth self h,
       (SequentialIterator.groups_left self h ≤ depth)%nat →
       SequentialIterator.next_rec depth self h = SequentialIterator.next self h)
  ∧ (∀ depth self h ks key xs,
       as_list h (SequentialIterator._keys self) = Some ks →
       getitem ks (SequentialIterator._current_attraction self) = Some key →
       exhibits_of h (SequentialIterator._attractions self) key = Some xs →
       len xs ≤ SequentialIterator._current_exhibit self →
       SequentialIterator._current_attraction self + 1 < len ks →
       SequentialIterator.next_rec (S depth) self h
       = SequentialIterator.next_rec depth
           (SequentialIterator.Build
              (SequentialIterator._attractions self)
              (SequentialIterator._keys self)
              (SequentialIterator._current_attraction self + 1) 0) h)
  ∧ (∀ self h ks r self' h',
       as_list h (SequentialIterator._keys self) = Some ks →
       0 ≤ SequentialIterator._current_attraction self ≤ len ks →
       SequentialIterator.next self h = (r, self', h') →
       h' = h
       ∧ as_list h' (SequentialIterator._keys self') = Some ks
       ∧ SequentialIterator._current_attraction self
         ≤ SequentialIterator._current_attraction self'
       ∧ 0 ≤ SequentialIterator._current_attraction self' ≤ len ks)
  ∧ (∀ self h, (RandomWalkIterator.next self h).1.1 ≠ Diverged)
  ∧ (∀ depth self h,
       (RandomWalkIterator.groups_left self h ≤ depth)%nat →
       RandomWalkIterator.next_rec depth self h = RandomWalkIterator.next self h)
  ∧ (∀ self h ks r self' h',
       as_list h (RandomWalkIterator._keys self) = Some ks →
       0 ≤ RandomWalkIterator._current_attraction self ≤ len ks →
       RandomWalkIterator.next self h = (r, self', h') →
       h' = h
       ∧ as_list h' (RandomWalkIterator._keys self') = Some ks
       ∧ RandomWalkIterator._current_attraction self
         ≤ RandomWalkIterator._current_attraction self'
       ∧ 0 ≤ RandomWalkIterator._current_attraction self' ≤ len ks).
Proof.
  split.
  { intros self h. rewrite SequentialFacts.next_unfold.
    by apply SequentialFacts.next_rec_terminates. }
  split; [exact SequentialFacts.next_rec_next|].
  split.
  { intros depth self h ks key xs Hks Hkey Hxs Hge Hlt.
    unfold exhibits_of in Hxs.
    destruct (as_dict h _) as [d|] eqn:Hd; [|done].
    destruct (dict_get d key) as [l|] eqn:Hl; [|done].
    rewrite (SequentialFacts.next_rec_skip _ _ _ Hks _ _ _ _ Hkey Hd Hl Hxs _ Hge).
    cbv zeta. by rewrite (proj2 (Z.ltb_lt _ _) Hlt). }
  split; [exact sequential_next_in_range|].
  split.
  { intros self h. rewrite RandomWalkFacts.next_sequential. unfold retag. simpl.
    rewrite SequentialFacts.next_unfold.
    by apply SequentialFacts.next_rec_terminates. }
  split.
  { intros depth self h Hle.
    rewrite RandomWalkFacts.next_rec_sequential, RandomWalkFacts.next_sequential.
    f_equal. by apply SequentialFacts.next_rec_next. }
  intros self h ks r self' h' Hks Hin.
  rewrite RandomWalkFacts.next_sequential. unfold retag.
  destruct (SequentialIterator.next (as_sequential self) h)
    as [[r0 s0] h0] eqn:Hn.
  simpl. intros [= -> <- ->].
  by destruct (sequential_next_in_range (as_sequential self) h ks _ _ _ Hks Hin Hn)
    as (-> & ? & ? & ?).
Qed.

Lemma next_terminates_with_cursor_in_range_witness :
  let h := <[3%nat := PyList ["A"; "B"]]>
             (<[2%nat := PyDict [("A", 0%nat); ("B", 1%nat)]]>
                (<[1%nat := PyList []]> (<[0%nat := PyList ["x"; "y"]]> ∅))) in
  let self := SequentialIterator.Build 2%nat 3%nat 0 2 in
  (SequentialIterator.groups_left self h ≤ 5)%nat
  ∧ SequentialIterator.next_rec 5 self h = SequentialIterator.next self h
  ∧ SequentialIterator.next self h
    = (Ret None, SequentialIterator.Build 2%nat 3%nat 2 0, h).
Proof.
  intros h self.
  assert (SequentialIterator.groups_left self h ≤ 5)%nat as Hle.
  { vm_compute. lia. }
  split; [exact Hle|]. split.
  - exact (proj1 (proj2 next_terminates_with_cursor_in_range) 5%nat self h Hle).
  - vm_compute. reflexivity.
Defined.

(** * Further properties *)

(** ** A larger store *)

Lemma as_list_weaken (h h' : heap) l xs :
  h ⊆ h' → as_list h l = Some xs → as_list h' l = Some xs.
Proof.
  unfold as_list. intros Hsub Hl.
  destruct (h !! l) as [o|] eqn:Ho; [|done].
  by rewrite (lookup_weaken _ _ _ _ Ho Hsub).
Qed.

Lemma as_dict_weaken (h h' : heap) a d :
  h ⊆ h' → as_dict h a = Some d → as_dict h' a = Some d.
Proof.
  unfold as_dict. intros Hsub Hl.
  destruct (h !! a) as [o|] eqn:Ho; [|done].
  by rewrite (lookup_weaken _ _ _ _ Ho Hsub).
Qed.

Lemma exhibits_of_weaken (h h' : heap) a key xs :
  h ⊆ h' → exhibits_of h a key = Some xs → exhibits_of h' a key = Some xs.
Proof.
  unfold exhibits_of. intros Hsub.
  destruct (as_dict h a) as [d|] eqn:Hd; [|done].
  rewrite (as_dict_weaken _ _ _ _ Hsub Hd).
  destruct (dict_get d key) as [l|]; [|done].
  by apply as_list_weaken.
Qed.

Lemma insert_fresh_subseteq (h : heap) o : h ⊆ <[fresh (dom h) := o]> h.
Proof. apply insert_subseteq, fresh_unused. Qed.

Module SequentialStore.
Import SequentialIterator.

(** The outcome of [next] in a store is its outcome in every larger store,
    unless a reference it followed was missing. *)
Lemma next_rec_weaken depth : ∀ self (h h' : heap) r self' h0,
  h ⊆ h' →
  next_rec depth self h = (r, self', h0) → r ≠ Raise TypeError →
  next_rec depth self h' = (r, self', h').
Proof.
  induction depth as [|depth IH]; intros self h h' r self' h0 Hsub Hnext Hr.
  all: destruct (as_list h (_keys self)) as [ks|] eqn:Hks;
    [|exfalso; simpl in Hnext; unfold_monad; rewrite Hks in Hnext;
      by injection Hnext as <- _ _].
  all: pose proof (as_list_weaken _ _ _ _ Hsub Hks) as Hks'.
  all: destruct (getitem ks (_current_attraction self)) as [key|] eqn:Hkey;
    [|rewrite (SequentialFacts.next_rec_IndexError _ _ _ Hks _ Hkey) in Hnext;
      injection Hnext as <- <- _;
      by apply SequentialFacts.next_rec_IndexError with ks].
  all: destruct (as_dict h (_attractions self)) as [d|] eqn:Hd;
    [|exfalso; simpl in Hnext; unfold_monad; rewrite Hks, Hkey, Hd in Hnext;
      by injection Hnext as <- _ _].
  all: pose proof (as_dict_weaken _ _ _ _ Hsub Hd) as Hd'.
  all: destruct (dict_get d key) as [l|] eqn:Hl;
    [|simpl in Hnext; simpl; unfold_monad;
      rewrite Hks, Hkey, Hd, Hl in Hnext; rewrite Hks', Hkey, Hd', Hl;
      by injection Hnext as <- <- _].
  all: destruct (as_list h l) as [xs|] eqn:Hxs;
    [|exfalso; simpl in Hnext; unfold_monad;
      rewrite Hks, Hkey, Hd, Hl, Hxs in Hnext; by injection Hnext as <- _ _].
  all: pose proof (as_list_weaken _ _ _ _ Hsub Hxs) as Hxs'.
  all: destruct (Z.ltb_spec (_current_exhibit self) (len xs)) as [Hlt|Hge].
  1,3: destruct (getitem xs (_current_exhibit self)) as [x|] eqn:Hx;
    [rewrite (SequentialFacts.next_rec_item _ _ _ Hks _ _ _ _ Hkey Hd Hl Hxs _ _ Hx)
       in Hnext; injection Hnext as <- <- _;
     by rewrite (SequentialFacts.next_rec_item _ _ _ Hks' _ _ _ _ Hkey Hd' Hl Hxs' _ _ Hx)
    |apply Z.ltb_lt in Hlt; simpl in Hnext; simpl; unfold_monad;
     rewrite Hks, Hkey, Hd, Hl, Hxs, Hlt, Hx in Hnext;
     rewrite Hks', Hkey, Hd', Hl, Hxs', Hlt, Hx;
     by injection Hnext as <- <- _].
  all: rewrite (SequentialFacts.next_rec_skip _ _ _ Hks _ _ _ _ Hkey Hd Hl Hxs _ Hge)
         in Hnext;
    rewrite (SequentialFacts.next_rec_skip _ _ _ Hks' _ _ _ _ Hkey Hd' Hl Hxs' _ Hge);
    cbv zeta in *;
    destruct (_current_attraction self + 1 <? len ks).
  all: try by injection Hnext as <- <- _.
  by eapply IH.
Qed.

Lemma next_weaken self (h h' : heap) r self' h0 :
  h ⊆ h' →
  next self h = (r, self', h0) → r ≠ Raise TypeError →
  next self h' = (r, self', h').
Proof.
  intros Hsub. rewrite !SequentialFacts.next_unfold. intros Hnext Hr.
  destruct (as_list h (_keys self)) as [ks|] eqn:Hks.
  - unfold groups_left in *.
    rewrite Hks in Hnext. rewrite (as_list_weaken _ _ _ _ Hsub Hks).
    by eapply next_rec_weaken.
  - exfalso. destruct (groups_left self h); simpl in Hnext; unfold_monad;
      rewrite Hks in Hnext; by injection Hnext as <- _ _.
Qed.

Lemma has_next_weaken self (h h' : heap) b self' h0 :
  h ⊆ h' →
  has_next self h = (Ret b, self', h0) → has_next self h' = (Ret b, self', h').
Proof.
  intros Hsub. unfold has_next. unfold_monad.
  destruct (as_list h (_keys self)) as [ks|] eqn:Hks; [|done].
  rewrite (as_list_weaken _ _ _ _ Hsub Hks). simpl.
  by intros [= <- <- _].
Qed.

End SequentialStore.

Module BusStore.
Import BusIterator.

Lemma bus_next_weaken self (h h' : heap) r self' h0 :
  h ⊆ h' →
  next self h = (r, self', h0) → r ≠ Raise TypeError →
  next self h' = (r, self', h').
Proof.
  intros Hsub. unfold next, set_index. unfold_monad.
  destruct (as_list h (_keys self)) as [ks|] eqn:Hks; simpl;
    [|by intros [= <- _ _]].
  rewrite (as_list_weaken _ _ _ _ Hsub Hks). simpl.
  destruct (getitem ks (_index self)); simpl; by intros [= <- <- _].
Qed.

Lemma bus_has_next_weaken self (h h' : heap) b self' h0 :
  h ⊆ h' →
  has_next self h = (Ret b, self', h0) → has_next self h' = (Ret b, self', h').
Proof.
  intros Hsub. unfold has_next. unfold_monad.
  destruct (as_list h (_keys self)) as [ks|] eqn:Hks; [|done].
  rewrite (as_list_weaken _ _ _ _ Hsub Hks). simpl.
  by intros [= <- <- _].
Qed.

End BusStore.

Lemma iterator_next_weaken (it : iterator) (h h' : heap) r it' h0 :
  h ⊆ h' →
  next it h = (r, it', h0) → r ≠ Raise TypeError →
  next it h' = (r, it', h').
Proof.
  intros Hsub. destruct it as [s|s|s]; simpl; unfold focus.
  - destruct (SequentialIterator.next s h) as [[r0 s'] h1] eqn:Hn.
    intros [= -> <- _] Hr.
    by rewrite (SequentialStore.next_weaken _ _ _ _ _ _ Hsub Hn Hr).
  - destruct (BusIterator.next s h) as [[r0 s'] h1] eqn:Hn.
    intros [= -> <- _] Hr.
    by rewrite (BusStore.bus_next_weaken _ _ _ _ _ _ Hsub Hn Hr).
  - rewrite !RandomWalkFacts.next_sequential. unfold retag.
    destruct (SequentialIterator.next (as_sequential s) h)
      as [[r0 s'] h1] eqn:Hn.
    simpl. intros [= -> <- _] Hr.
    by rewrite (SequentialStore.next_weaken _ _ _ _ _ _ Hsub Hn Hr).
Qed.

Lemma iterator_has_next_weaken (it : iterator) (h h' : heap) b it' h0 :
  h ⊆ h' →
  has_next it h = (Ret b, it', h0) → has_next it h' = (Ret b, it', h').
Proof.
  intros Hsub. destruct it as [s|s|s]; simpl; unfold focus.
  - destruct (SequentialIterator.has_next s h) as [[r0 s'] h1] eqn:Hn.
    intros [= -> <- _].
    by rewrite (SequentialStore.has_next_weaken _ _ _ _ _ _ Hsub Hn).
  - destruct (BusIterator.has_next s h) as [[r0 s'] h1] eqn:Hn.
    intros [= -> <- _].
    by rewrite (BusStore.bus_has_next_weaken _ _ _ _ _ _ Hsub Hn).
  - rewrite !RandomWalkFacts.has_next_sequential. unfold retag.
    destruct (SequentialIterator.has_next (as_sequential s) h)
      as [[r0 s'] h1] eqn:Hn.
    simpl. intros [= -> <- _].
    by rewrite (SequentialStore.has_next_weaken _ _ _ _ _ _ Hsub Hn).
Qed.

(** ** What [create_iterator] does to the store *)

Lemma create_iterator_store rand type_ (self self' : CityAttractions.t)
    (h h' : heap) it :
  CityAttractions.create_iterator rand type_ self h = (Ret it, self', h') →
  self' = self
  ∧ iterator_attractions it = CityAttractions._attractions self
  ∧ iterator_keys it = fresh (dom h)
  ∧ iterator_cursor it = 0
  ∧ iterator_exhibit it = 0
  ∧ ∃ d ks,
      as_dict h (CityAttractions._attractions self) = Some d
      ∧ h' = <[fresh (dom h) := PyList ks]> h
      ∧ ks ≡ₚ dict_keys d
      ∧ (type_ ≠ Some "random_walk" → ks = dict_keys d).
Proof.
  unfold CityAttractions.create_iterator.
  unfold bind at 1. unfold get_self.
  destruct (as_dict h (CityAttractions._attractions self)) as [d|] eqn:Hd;
    cycle 1.
  { destruct (String.eqb _ "bus"); [|destruct (String.eqb _ "random_walk")].
    all: unfold BusIterator.__init__, RandomWalkIterator.__init__,
      SequentialIterator.__init__; unfold_monad; by rewrite Hd. }
  destruct (String.eqb_spec (default "sequential" type_) "bus") as [Hbus|Hbus].
  { unfold bind. rewrite (BusIterator_init _ _ _ _ Hd). unfold ret.
    intros [= <- <- <-]. repeat split. exists d, (dict_keys d).
    by repeat split. }
  destruct (String.eqb_spec (default "sequential" type_) "random_walk")
    as [Hrw|Hrw].
  { destruct (RandomWalkIterator_init rand _ self _ _ Hd) as (ks & Hperm & Hinit).
    unfold bind. rewrite Hinit. unfold ret.
    intros [= <- <- <-]. repeat split. exists d, ks.
    repeat split; [done|]. intros Hty. destruct type_ as [ty|]; simplify_eq/=. }
  unfold bind. rewrite (SequentialIterator_init _ _ _ _ Hd). unfold ret.
  intros [= <- <- <-]. repeat split. exists d, (dict_keys d).
  by repeat split.
Qed.

(** X1.  Whatever the kind asked for, [create_iterator] leaves the collection
    object and every object of the store as they are, and adds one object:
    the list of keys of the new iterator, at an address that was unused.
    The list holds the keys of the dict, in insertion order unless the kind
    is ["random_walk"], and the iterator starts with its cursor at zero. *)
Theorem create_iterator_adds_only_the_key_list rand type_
    (self self' : CityAttractions.t) (h h' : heap) it :
  CityAttractions.create_iterator rand type_ self h = (Ret it, self', h') →
  self' = self
  ∧ iterator_attractions it = CityAttractions._attractions self
  ∧ iterator_cursor it = 0
  ∧ h !! iterator_keys it = None
  ∧ (∀ l, l ≠ iterator_keys it → h' !! l = h !! l)
  ∧ ∃ d ks,
      as_dict h (CityAttractions._attractions self) = Some d
      ∧ as_dict h' (CityAttractions._attractions self) = Some d
      ∧ as_list h' (iterator_keys it) = Some ks
      ∧ ks ≡ₚ dict_keys d
      ∧ (type_ ≠ Some "random_walk" → ks = dict_keys d).
Proof.
  intros (-> & Ha & Hk & Hc & _ & d & ks & Hd & -> & Hperm & Hsame)%create_iterator_store.
  rewrite Hk. repeat split; [done..|apply fresh_unused| |].
  { intros l Hl. by rewrite lookup_insert_ne. }
  exists d, ks. repeat split; [done| |apply as_list_insert|done..].
  by apply as_dict_insert_fresh.
Qed.

Lemma create_iterator_adds_only_the_key_list_witness :
  let h := <[2%nat := PyDict [("A", 0%nat); ("B", 1%nat)]]>
             (<[1%nat := PyList []]> (<[0%nat := PyList ["x"; "y"]]> ∅)) in
  let self := CityAttractions.Build 2%nat in
  let it := Sequential (SequentialIterator.Build 2%nat 3%nat 0 0) in
  let h' := <[3%nat := PyList ["A"; "B"]]> h in
  CityAttractions.create_iterator (λ _, O) None self h = (Ret it, self, h')
  ∧ h !! 3%nat = None
  ∧ (∀ l, l ≠ 3%nat → h' !! l = h !! l).
Proof.
  intros h self it h'.
  assert (CityAttractions.create_iterator (λ _, O) None self h
          = (Ret it, self, h')) as Hc.
  { vm_compute. reflexivity. }
  split; [exact Hc|].
  destruct (create_iterator_adds_only_the_key_list _ _ _ _ _ _ _ Hc)
    as (_ & _ & _ & Hnew & Hold & _).
  split; [exact Hnew|exact Hold].
Defined.

(** X2.  Iterators over one collection do not interfere.  What [has_next()] and
    [next()] give on an iterator is not changed by making another iterator
    of any kind on the collection, nor by any calls made on that other
    iterator. *)
Theorem iterators_do_not_interfere rand type_ (self self' : CityAttractions.t)
    (h h' : heap) (other : iterator) (it : iterator) (cs : list method) :
  CityAttractions.create_iterator rand type_ self h = (Ret other, self', h') →
  (after_all cs other h').2 = h'
  ∧ (∀ b it' h0,
       has_next it h = (Ret b, it', h0) → has_next it h' = (Ret b, it', h'))
  ∧ (∀ r it' h0,
       next it h = (r, it', h0) → r ≠ Raise TypeError →
       next it h' = (r, it', h')).
Proof.
  intros (_ & _ & _ & _ & _ & d & ks & _ & -> & _)%create_iterator_store.
  split; [apply after_all_heap|].
  pose proof (insert_fresh_subseteq h (PyList ks)) as Hsub.
  split.
  - intros b it' h0. by apply iterator_has_next_weaken.
  - intros r it' h0. by apply iterator_next_weaken.
Qed.

Lemma iterators_do_not_interfere_witness :
  let h := <[3%nat := PyList ["A"; "B"]]>
             (<[2%nat := PyDict [("A", 0%nat); ("B", 1%nat)]]>
                (<[1%nat := PyList []]> (<[0%nat := PyList ["x"; "y"]]> ∅))) in
  let self := CityAttractions.Build 2%nat in
  let it := Sequential (SequentialIterator.Build 2%nat 3%nat 0 1) in
  let other := Bus (BusIterator.Build 2%nat 4%nat 0) in
  let h' := <[4%nat := PyList ["A"; "B"]]> h in
  CityAttractions.create_iterator (λ _, O) (Some "bus") self h
  = (Ret other, self, h')
  ∧ next it h = (Ret (Some "A: y"),
                 Sequential (SequentialIterator.Build 2%nat 3%nat 0 2), h)
  ∧ next it h' = (Ret (Some "A: y"),
                  Sequential (SequentialIterator.Build 2%nat 3%nat 0 2), h').
Proof.
  intros h self it other h'.
  assert (CityAttractions.create_iterator (λ _, O) (Some "bus") self h
          = (Ret other, self, h')) as Hc.
  { vm_compute. reflexivity. }
  assert (next it h = (Ret (Some "A: y"),
                       Sequential (SequentialIterator.Build 2%nat 3%nat 0 2), h))
    as Hn.
  { vm_compute. reflexivity. }
  split; [exact Hc|]. split; [exact Hn|].
  refine (proj2 (proj2 (iterators_do_not_interfere _ _ _ _ _ _ _ it [] Hc))
            _ _ _ Hn _).
  discriminate.
Defined.

(** ** The values of a walk *)


Lemma lines_of_weaken (h h' : heap) a ks :
  h ⊆ h' → (∀ key, key ∈ ks → is_Some (exhibits_of h a key)) →
  lines_of h' a ks = lines_of h a ks.
Proof.
  intros Hsub Hclosed. unfold lines_of. f_equal.
  apply list_fmap_ext. intros i key Hkey.
  destruct (Hclosed key) as [xs Hxs]; [by eapply list_elem_of_lookup_2|].
  unfold group_lines. by rewrite Hxs, (exhibits_of_weaken _ _ _ _ _ Hsub Hxs).
Qed.

Lemma lines_of_Permutation (h : heap) a ks ks' :
  ks ≡ₚ ks' → lines_of h a ks ≡ₚ lines_of h a ks'.
Proof.
  unfold lines_of.
  induction 1 as [|key ks ks' _ IH|key key' ks|ks1 ks2 ks3 _ IH1 _ IH2];
    rewrite ?fmap_cons; cbn [concat].
  - done.
  - by rewrite IH.
  - rewrite !(assoc_L (++)). f_equiv. apply Permutation_app_comm.
  - by rewrite IH1.
Qed.

(** The loop of the client over the keys [ks] held at a new address. *)
Lemma sequential_consume_fresh (h : heap) a ks fuel :
  (∀ key, key ∈ ks → is_Some (exhibits_of h a key)) →
  (length (lines_of h a ks) < fuel)%nat →
  let k := fresh (dom h) in
  let h' := <[k := PyList ks]> h in
  consume fuel (SequentialIterator.Build a k 0 0) h'
  = (Ret ((Some <$> lines_of h a ks) ++ (if ks is [] then [] else [None]))%list,
     SequentialIterator.Build a k (len ks) 0, h').
Proof.
  intros Hclosed Hfuel k h'.
  pose proof (insert_fresh_subseteq h (PyList ks)) as Hsub.
  rewrite <- (lines_of_weaken h h' a ks Hsub Hclosed).
  apply sequential_consume.
  - apply as_list_insert.
  - intros key Hkey. destruct (Hclosed key Hkey) as [xs Hxs].
    exists xs. by apply (exhibits_of_weaken h).
  - by rewrite (lines_of_weaken h h' a ks Hsub Hclosed).
Qed.







(** ** Calls from a constructor on *)

Lemma getitem_elem_of {A} (xs : list A) i x : getitem xs i = Some x → x ∈ xs.
Proof.
  unfold getitem. intros Hx.
  destruct (i <? 0); [destruct (- len xs <=? i); [|done]|];
    by eapply list_elem_of_lookup_2.
Qed.







(** ** The value that [next] returns *)

Module SequentialValue.
Import SequentialIterator SequentialFacts.

Lemma next_rec_value depth : ∀ self h v self' h',
  next_rec depth self h = (Ret (Some v), self', h') →
  ∃ ks key xs x,
    as_list h (_keys self) = Some ks
    ∧ getitem ks (_current_attraction self') = Some key
    ∧ exhibits_of h (_attractions self) key = Some xs
    ∧ getitem xs (_current_exhibit self' - 1) = Some x
    ∧ v = fmt key x
    ∧ (_current_attraction self' = _current_attraction self
       ∧ _current_exhibit self' = _current_exhibit self + 1
       ∨ _current_attraction self < _current_attraction self'
         ∧ _current_exhibit self' = 1).
Proof.
  induction depth as [|depth IH]; intros self h v self' h' Hnext.
  all: next_by_cases self h Hnext; try done.
  1,3: injection Hnext as <- <- <-; exists ks, key, xs, x; simpl;
    replace (_current_exhibit self + 1 - 1) with (_current_exhibit self) by lia;
    unfold exhibits_of; rewrite Hd, Hl; repeat split; try done; by left.
  all: cbv zeta in Hnext;
    destruct (_current_attraction self + 1 <? len ks); try done.
  apply IH in Hnext
    as (ks' & key' & xs' & x' & Hks' & Hkey' & Hxs' & Hx' & -> & Hpos).
  simpl in *. rewrite Hks in Hks'. injection Hks' as <-.
  exists ks, key', xs', x'. repeat split; try done. right.
  destruct Hpos as [[-> ->]|[? ->]]; split; lia.
Qed.

End SequentialValue.

(** X7.  Every string that [next()] of [SequentialIterator] or of
    [RandomWalkIterator] returns is ["<key>: <exhibit>"] for a key of the
    iterator's list and an exhibit of that key's list, and the cursors after
    the call stand just behind that exhibit: either the call stayed in its
    group and moved the cursor over the exhibits by one, or it moved on to a
    later group and returned its first exhibit. *)
Theorem next_returns_the_exhibit_before_the_cursor :
  (∀ self h v self' h',
     SequentialIterator.next self h = (Ret (Some v), self', h') →
     ∃ ks key xs x,
       as_list h (SequentialIterator._keys self) = Some ks
       ∧ getitem ks (SequentialIterator._current_attraction self') = Some key
       ∧ exhibits_of h (SequentialIterator._attractions self) key = Some xs
       ∧ getitem xs (SequentialIterator._current_exhibit self' - 1) = Some x
       ∧ key ∈ ks ∧ x ∈ xs
       ∧ v = key +:+ ": " +:+ x
       ∧ (SequentialIterator._current_attraction self'
          = SequentialIterator._current_attraction self
          ∧ SequentialIterator._current_exhibit self'
            = SequentialIterator._current_exhibit self + 1
          ∨ SequentialIterator._current_attraction self
            < SequentialIterator._current_attraction self'
            ∧ SequentialIterator._current_exhibit self' = 1))
  ∧ (∀ self h v self' h',
       RandomWalkIterator.next self h = (Ret (Some v), self', h') →
       ∃ ks key xs x,
         as_list h (RandomWalkIterator._keys self) = Some ks
         ∧ getitem ks (RandomWalkIterator._current_attraction self') = Some key
         ∧ exhibits_of h (RandomWalkIterator._attractions self) key = Some xs
         ∧ getitem xs (RandomWalkIterator._current_exhibit self' - 1) = Some x
         ∧ key ∈ ks ∧ x ∈ xs
         ∧ v = key +:+ ": " +:+ x
         ∧ (RandomWalkIterator._current_attraction self'
            = RandomWalkIterator._current_attraction self
            ∧ RandomWalkIterator._current_exhibit self'
              = RandomWalkIterator._current_exhibit self + 1
            ∨ RandomWalkIterator._current_attraction self
              < RandomWalkIterator._current_attraction self'
              ∧ RandomWalkIterator._current_exhibit self' = 1)).
Proof.
  assert (∀ self h v self' h',
     SequentialIterator.next self h = (Ret (Some v), self', h') →
     ∃ ks key xs x,
       as_list h (SequentialIterator._keys self) = Some ks
       ∧ getitem ks (SequentialIterator._current_attraction self') = Some key
       ∧ exhibits_of h (SequentialIterator._attractions self) key = Some xs
       ∧ getitem xs (SequentialIterator._current_exhibit self' - 1) = Some x
       ∧ key ∈ ks ∧ x ∈ xs
       ∧ v = key +:+ ": " +:+ x
       ∧ (SequentialIterator._current_attraction self'
          = SequentialIterator._current_attraction self
          ∧ SequentialIterator._current_exhibit self'
            = SequentialIterator._current_exhibit self + 1
          ∨ SequentialIterator._current_attraction self
            < SequentialIterator._current_attraction self'
            ∧ SequentialIterator._current_exhibit self' = 1)) as Hseq.
  { intros self h v self' h'. rewrite SequentialFacts.next_unfold.
    intros (ks & key & xs & x & Hks & Hkey & Hxs & Hx & -> & Hpos)
      %SequentialValue.next_rec_value.
    exists ks, key, xs, x. repeat split; try done.
    - by eapply getitem_elem_of.
    - by eapply getitem_elem_of. }
  split; [exact Hseq|].
  intros self h v self' h'.
  rewrite RandomWalkFacts.next_sequential. unfold retag.
  destruct (SequentialIterator.next (as_sequential self) h)
    as [[r0 s0] h0] eqn:Hn.
  simpl. intros [= -> <- _].
  destruct (Hseq _ _ _ _ _ Hn)
    as (ks & key & xs & x & Hks & Hkey & Hxs & Hx & Hin & Hin' & -> & Hpos).
  exists ks, key, xs, x. by destruct self, s0.
Qed.

Lemma next_returns_the_exhibit_before_the_cursor_witness :
  let h := <[3%nat := PyList ["A"; "B"; "C"]]>
             (<[2%nat := PyDict [("A", 0%nat); ("B", 1%nat); ("C", 0%nat)]]>
                (<[1%nat := PyList []]> (<[0%nat := PyList ["x"; "y"]]> ∅))) in
  let self := SequentialIterator.Build 2%nat 3%nat 0 2 in
  let self' := SequentialIterator.Build 2%nat 3%nat 2 1 in
  SequentialIterator.next self h = (Ret (Some "C: x"), self', h)
  ∧ ∃ ks key xs x,
      getitem ks 2 = Some key ∧ exhibits_of h 2%nat key = Some xs
      ∧ getitem xs (1 - 1) = Some x ∧ "C: x" = key +:+ ": " +:+ x.
Proof.
  intros h self self'.
  assert (SequentialIterator.next self h = (Ret (Some "C: x"), self', h))
    as Hnext.
  { vm_compute. reflexivity. }
  split; [exact Hnext|].
  destruct (proj1 next_returns_the_exhibit_before_the_cursor _ _ _ _ _ Hnext)
    as (ks & key & xs & x & _ & Hkey & Hxs & Hx & _ & _ & Hv & _).
  exists ks, key, xs, x. split; [exact Hkey|]. split; [exact Hxs|].
  split; [exact Hx|exact Hv].
Defined.

(** ** The loop of the client through the interface *)

Lemma consume_Sequential fuel : ∀ (it : SequentialIterator.t) h,
  consume fuel (Sequential it) h = on_variant Sequential (consume fuel it h).
Proof.
  induction fuel as [|fuel IH]; intros it h; simpl.
  all: unfold bind, ret, focus, on_variant.
  all: destruct (SequentialIterator.has_next it h) as [[[[|]| |] it0] h0];
    simpl; try done.
  destruct (SequentialIterator.next it0 h0) as [[[v| |] it1] h1]; simpl;
    try done.
  rewrite IH. unfold on_variant.
  by destruct (consume fuel it1 h1) as [[[vs| |] it2] h2].
Qed.

Lemma consume_Bus fuel : ∀ (it : BusIterator.t) h,
  consume fuel (Bus it) h = on_variant Bus (consume fuel it h).
Proof.
  induction fuel as [|fuel IH]; intros it h; simpl.
  all: unfold bind, ret, focus, on_variant.
  all: destruct (BusIterator.has_next it h) as [[[[|]| |] it0] h0];
    simpl; try done.
  destruct (BusIterator.next it0 h0) as [[[v| |] it1] h1]; simpl;
    try done.
  rewrite IH. unfold on_variant.
  by destruct (consume fuel it1 h1) as [[[vs| |] it2] h2].
Qed.

Lemma consume_RandomWalk fuel : ∀ (it : RandomWalkIterator.t) h,
  consume fuel (RandomWalk it) h = on_variant RandomWalk (consume fuel it h).
Proof.
  induction fuel as [|fuel IH]; intros it h; simpl.
  all: unfold bind, ret, focus, on_variant.
  all: destruct (RandomWalkIterator.has_next it h) as [[[[|]| |] it0] h0];
    simpl; try done.
  destruct (RandomWalkIterator.next it0 h0) as [[[v| |] it1] h1]; simpl;
    try done.
  rewrite IH. unfold on_variant.
  by destruct (consume fuel it1 h1) as [[[vs| |] it2] h2].
Qed.

Lemma create_iterator_consume rand type_ (self : CityAttractions.t)
    (h : heap) d fuel :
  as_dict h (CityAttractions._attractions self) = Some d →
  (∀ key, key ∈ dict_keys d →
          is_Some (exhibits_of h (CityAttractions._attractions self) key)) →
  (length (lines_of h (CityAttractions._attractions self) (dict_keys d)) < fuel)%nat →
  (length d ≤ fuel)%nat →
  ∃ it it' h' ks,
    CityAttractions.create_iterator rand type_ self h = (Ret it, self, h')
    ∧ h ⊆ h'
    ∧ ks ≡ₚ dict_keys d
    ∧ (type_ ≠ Some "random_walk" → ks = dict_keys d)
    ∧ consume fuel it h'
      = (Ret (if String.eqb (default "sequential" type_) "bus"
              then Some <$> ks
              else ((Some <$> lines_of h (CityAttractions._attractions self) ks)
                    ++ (if ks is [] then [] else [None]))%list),
         it', h').
Proof.
  intros Hd Hclosed Hfuel Hgroups.
  unfold CityAttractions.create_iterator.
  unfold bind at 1. unfold get_self.
  set (a := CityAttractions._attractions self) in *.
  destruct (String.eqb (default "sequential" type_) "bus") eqn:Hbus.
  { unfold bind. rewrite (BusIterator_init _ _ _ _ Hd). unfold ret.
    eexists _, _, _, (dict_keys d). split; [done|].
    split; [apply insert_fresh_subseteq|]. split; [done|]. split; [done|].
    rewrite consume_Bus. change 0 with (Z.of_nat 0).
    rewrite (BusFacts.consume_from fuel a _ 0 _ (dict_keys d));
      [|apply as_list_insert|unfold dict_keys; rewrite length_fmap; lia].
    unfold on_variant. simpl. by rewrite drop_0. }
  destruct (String.eqb_spec (default "sequential" type_) "random_walk")
    as [Hrw|Hrw].
  { destruct (RandomWalkIterator_init rand a self h d Hd) as (ks & Hperm & Hinit).
    unfold bind. rewrite Hinit. unfold ret.
    eexists _, _, _, ks. split; [done|].
    split; [apply insert_fresh_subseteq|]. split; [done|].
    split; [intros Hty; destruct type_; simplify_eq/=|].
    rewrite consume_RandomWalk, consume_sequential.
    change (as_sequential (RandomWalkIterator.Build a (fresh (dom h)) 0 0))
      with (SequentialIterator.Build a (fresh (dom h)) 0 0).
    rewrite (sequential_consume_fresh h a ks fuel); [done| |].
    - intros key Hkey. apply Hclosed. by rewrite <- Hperm.
    - by rewrite (Permutation_length (lines_of_Permutation h a _ _ Hperm)). }
  unfold bind. rewrite (SequentialIterator_init _ _ _ _ Hd). unfold ret.
  eexists _, _, _, (dict_keys d). split; [done|].
  split; [apply insert_fresh_subseteq|]. split; [done|]. split; [done|].
  rewrite consume_Sequential.
  by rewrite (sequential_consume_fresh h a (dict_keys d) fuel Hclosed Hfuel).
Qed.



(** ** The program *)

Lemma fmap_py_str_Some (l : list string) : py_str <$> (Some <$> l) = l.
Proof. induction l as [|x l IH]; [done|]. by rewrite !fmap_cons, IH. Qed.

(** X9.  [main()] never raises, whatever the generator draws: it prints the
    heading of the walk on foot, the eight exhibits in the order of the
    collection and the line [None]; the heading of the bus tour and the
    three attractions; the heading of the random walk, the eight exhibits in
    some order, and the line [None]. *)
Theorem main_prints_three_walks (rand : nat → nat) (fuel : nat) :
  (9 ≤ fuel)%nat →
  ∃ out3,
    out3 ≡ₚ ["Эрмитаж: Картина 1"; "Эрмитаж: Картина 2"; "Эрмитаж: Статуя 1";
             "Исаакиевский собор: Мозаика 1"; "Исаакиевский собор: Люстра";
             "Исаакиевский собор: Витраж";
             "Петропавловская крепость: Пушка";
             "Петропавловская крепость: Музей истории"]
    ∧ run (main rand fuel) tt ∅
      = Ret (["Пешком:";
              "Эрмитаж: Картина 1"; "Эрмитаж: Картина 2"; "Эрмитаж: Статуя 1";
              "Исаакиевский собор: Мозаика 1"; "Исаакиевский собор: Люстра";
              "Исаакиевский собор: Витраж";
              "Петропавловская крепость: Пушка";
              "Петропавловская крепость: Музей истории";
              "None";
              newline +:+ "На автобусе:";
              "Эрмитаж"; "Исаакиевский собор"; "Петропавловская крепость";
              newline +:+ "Случайная прогулка:"]
             ++ out3 ++ ["None"])%list.
Proof.
  intros Hfuel.
  set (h0 := <[3%nat := PyDict [("Эрмитаж", 0%nat);
                                ("Исаакиевский собор", 1%nat);
                                ("Петропавловская крепость", 2%nat)]]>
               (<[2%nat := PyList ["Пушка"; "Музей истории"]]>
                  (<[1%nat := PyList ["Мозаика 1"; "Люстра"; "Витраж"]]>
                     (<[0%nat := PyList ["Картина 1"; "Картина 2"; "Статуя 1"]]>
                        (∅ : heap))))).
  set (city := CityAttractions.Build 3%nat).
  set (d := [("Эрмитаж", 0%nat); ("Исаакиевский собор", 1%nat);
             ("Петропавловская крепость", 2%nat)] : list (string * loc)).
  assert (CityAttractions.__init__ tt ∅ = (Ret city, tt, h0)) as Hinit.
  { vm_compute. reflexivity. }
  assert (as_dict h0 3%nat = Some d) as Hd0 by (vm_compute; reflexivity).
  assert (∀ key, key ∈ dict_keys d → is_Some (exhibits_of h0 3%nat key))
    as Hclosed0.
  { intros key Hkey. simpl in Hkey.
    apply elem_of_cons in Hkey as [->|Hkey]; [by eexists|].
    apply elem_of_cons in Hkey as [->|Hkey]; [by eexists|].
    apply elem_of_cons in Hkey as [->|Hkey]; [by eexists|].
    by apply elem_of_nil in Hkey. }
  assert (lines_of h0 3%nat (dict_keys d)
          = ["Эрмитаж: Картина 1"; "Эрмитаж: Картина 2"; "Эрмитаж: Статуя 1";
             "Исаакиевский собор: Мозаика 1"; "Исаакиевский собор: Люстра";
             "Исаакиевский собор: Витраж";
             "Петропавловская крепость: Пушка";
             "Петропавловская крепость: Музей истории"]) as Hlines0.
  { vm_compute. reflexivity. }
  assert (∀ h : heap, h0 ⊆ h →
            as_dict h 3%nat = Some d
            ∧ (∀ key, key ∈ dict_keys d → is_Some (exhibits_of h 3%nat key))
            ∧ ∀ ks, ks ≡ₚ dict_keys d → lines_of h 3%nat ks = lines_of h0 3%nat ks)
    as Hlater.
  { intros h Hsub. split; [by apply (as_dict_weaken h0)|]. split.
    - intros key Hkey. destruct (Hclosed0 key Hkey) as [xs Hxs].
      exists xs. by apply (exhibits_of_weaken h0).
    - intros ks Hperm. apply lines_of_weaken; [done|].
      intros key Hkey. apply Hclosed0. by rewrite <- Hperm. }
  destruct (create_iterator_consume rand None city h0 d fuel Hd0 Hclosed0)
    as (it1 & it1' & h1 & ks1 & Hc1 & Hsub1 & _ & Hks1 & Hloop1);
    [change (CityAttractions._attractions city) with 3%nat;
     rewrite Hlines0; simpl; lia|simpl; lia|].
  change (CityAttractions._attractions city) with 3%nat in *.
  rewrite Hks1 in Hloop1 by done.
  change (String.eqb (default "sequential" None) "bus") with false in Hloop1.
  cbv iota in Hloop1.
  destruct (Hlater h1 Hsub1) as (Hd1 & Hclosed1 & Hlines1).
  destruct (create_iterator_consume rand (Some "bus") city h1 d fuel Hd1 Hclosed1)
    as (it2 & it2' & h2 & ks2 & Hc2 & Hsub2 & _ & Hks2 & Hloop2);
    [change (CityAttractions._attractions city) with 3%nat;
     rewrite Hlines1, Hlines0 by done; simpl; lia|simpl; lia|].
  change (CityAttractions._attractions city) with 3%nat in *.
  rewrite Hks2 in Hloop2 by done.
  change (String.eqb (default "sequential" (Some "bus")) "bus")
    with true in Hloop2.
  cbv iota in Hloop2.
  assert (h0 ⊆ h2) as Hsub02 by by etrans.
  destruct (Hlater h2 Hsub02) as (Hd2 & Hclosed2 & Hlines2).
  destruct (create_iterator_consume rand (Some "random_walk") city h2 d fuel
              Hd2 Hclosed2)
    as (it3 & it3' & h3 & ks3 & Hc3 & Hsub3 & Hperm3 & _ & Hloop3);
    [change (CityAttractions._attractions city) with 3%nat;
     rewrite Hlines2, Hlines0 by done; simpl; lia|simpl; lia|].
  change (CityAttractions._attractions city) with 3%nat in *.
  change (String.eqb (default "sequential" (Some "random_walk")) "bus")
    with false in Hloop3.
  cbv iota in Hloop3.
  exists (lines_of h0 3%nat ks3). split.
  { rewrite <- Hlines0. by apply lines_of_Permutation. }
  assert (ks3 ≠ []) as Hne.
  { intros ->. by apply Permutation_nil_l in Hperm3. }
  unfold run, main.
  unfold bind at 1. unfold call at 1. rewrite Hinit.
  unfold bind at 1. unfold call at 1. rewrite Hc1.
  unfold bind at 1. unfold call at 1. rewrite Hloop1.
  unfold bind at 1. unfold call at 1. rewrite Hc2.
  unfold bind at 1. unfold call at 1. rewrite Hloop2.
  unfold bind at 1. unfold call at 1. rewrite Hc3.
  unfold bind at 1. unfold call at 1. rewrite Hloop3.
  unfold ret. cbn [fst snd].
  rewrite Hlines2 by done. rewrite Hlines0.
  destruct ks3 as [|key3 ks3]; [done|].
  rewrite !fmap_app, !fmap_py_str_Some. reflexivity.
Qed.

Lemma main_prints_three_walks_witness :
  ∃ out3,
    length out3 = 8%nat
    ∧ run (main (λ _, O) 9) tt ∅
      = Ret (["Пешком:";
              "Эрмитаж: Картина 1"; "Эрмитаж: Картина 2"; "Эрмитаж: Статуя 1";
              "Исаакиевский собор: Мозаика 1"; "Исаакиевский собор: Люстра";
              "Исаакиевский собор: Витраж";
              "Петропавловская крепость: Пушка";
              "Петропавловская крепость: Музей истории";
              "None";
              newline +:+ "На автобусе:";
              "Эрмитаж"; "Исаакиевский собор"; "Петропавловская крепость";
              newline +:+ "Случайная прогулка:"]
             ++ out3 ++ ["None"])%list.
Proof.
  destruct (main_prints_three_walks (λ _, O) 9%nat) as (out3 & Hperm & Hmain);
    [lia|].
  exists out3. split; [|exact Hmain].
  by rewrite (Permutation_length Hperm).
Defined.
